(** * linehaul.server: a shallow embedding of the ingestion pipeline

    The module [linehaul/server.py] decodes syslog-framed download events
    ([parse_line]), groups them by a day key ([extract_item_date],
    [compute_batches]), drives one TCP connection ([handle_connection]),
    delivers a batch with retries ([actually_send_batch], [send_batch]) and
    runs the dispatch loop ([sender]).

    Python values are embedded as follows: [bytes] is a list of bytes, [str]
    is a list of Unicode code points, an [int] is a [Z], a call that can
    raise returns a [result], and code that draws identifiers or performs
    I/O threads its state explicitly. *)

From Stdlib Require Import List ZArith NArith Lia Bool String Ascii.
From Stdlib Require Import Strings.Byte DecimalString Permutation Sorted.
From Stdlib Require Import OrderedTypeEx QArith Qminmax Lqa.
Import ListNotations.

Set Implicit Arguments.

(** ** Python values *)

(** A Python [bytes] object. *)
Definition bytes := list byte.

(** A Python [str]: a sequence of Unicode code points. *)
Definition pystr := list N.

(** The exception classes the module meets.  [UnicodeDecodeError] derives
    from [ValueError]; every class derives from [Exception] except
    [Cancelled], which like [KeyboardInterrupt] derives from
    [BaseException] only. *)
Inductive exn : Type :=
| UnicodeDecodeError
| ValueError
| OSError
| TooSlowError
| BrokenStreamError
| BufferTooLargeError
| TruncatedLineError
| OtherException (tag : nat)
| Cancelled.

(** [isinstance(e, ValueError)] *)
Definition isinstance_ValueError (e : exn) : bool :=
  match e with
  | UnicodeDecodeError | ValueError => true
  | _ => false
  end.

(** [isinstance(e, Exception)] *)
Definition isinstance_Exception (e : exn) : bool :=
  match e with
  | Cancelled => false
  | _ => true
  end.

(** The outcome of a call: it returns a value or raises. *)
Inductive result (A : Type) : Type :=
| Return (a : A)
| Raise (e : exn).

Arguments Return {A} a.
Arguments Raise {A} e.

(** ** [bytes.decode("utf8")]

    The strict decoder: shortest forms only, no surrogates, nothing above
    U+10FFFF.  [None] stands for [UnicodeDecodeError]. *)

Definition in_range (lo hi n : N) : bool := ((lo <=? n) && (n <=? hi))%N.

Definition is_continuation (n : N) : bool := in_range 0x80 0xBF n.

(** The payload bits of a continuation byte. *)
Definition cont_bits (n : N) : N := (n - 0x80)%N.

(** Bounds on the second byte of a three-byte sequence. *)
Definition second_of_three (lead : N) : N * N :=
  if (lead =? 0xE0)%N then (0xA0, 0xBF)%N
  else if (lead =? 0xED)%N then (0x80, 0x9F)%N
  else (0x80, 0xBF)%N.

(** Bounds on the second byte of a four-byte sequence. *)
Definition second_of_four (lead : N) : N * N :=
  if (lead =? 0xF0)%N then (0x90, 0xBF)%N
  else if (lead =? 0xF4)%N then (0x80, 0x8F)%N
  else (0x80, 0xBF)%N.

Fixpoint utf8_decode (bs : bytes) : option pystr :=
  match bs with
  | [] => Some []
  | b0 :: r0 =>
    let n0 := Byte.to_N b0 in
    if (n0 <? 0x80)%N then
      option_map (cons n0) (utf8_decode r0)
    else if in_range 0xC2 0xDF n0 then
      match r0 with
      | b1 :: r1 =>
        let n1 := Byte.to_N b1 in
        if is_continuation n1 then
          option_map (cons ((n0 - 0xC0) * 64 + cont_bits n1)%N)
                     (utf8_decode r1)
        else None
      | [] => None
      end
    else if in_range 0xE0 0xEF n0 then
      match r0 with
      | b1 :: b2 :: r2 =>
        let n1 := Byte.to_N b1 in
        let n2 := Byte.to_N b2 in
        let (lo, hi) := second_of_three n0 in
        if in_range lo hi n1 && is_continuation n2 then
          option_map
            (cons ((n0 - 0xE0) * 4096 + cont_bits n1 * 64 + cont_bits n2)%N)
            (utf8_decode r2)
        else None
      | _ => None
      end
    else if in_range 0xF0 0xF4 n0 then
      match r0 with
      | b1 :: b2 :: b3 :: r3 =>
        let n1 := Byte.to_N b1 in
        let n2 := Byte.to_N b2 in
        let n3 := Byte.to_N b3 in
        let (lo, hi) := second_of_four n0 in
        if in_range lo hi n1 && is_continuation n2 && is_continuation n3 then
          option_map
            (cons ((n0 - 0xF0) * 262144 + cont_bits n1 * 4096
                   + cont_bits n2 * 64 + cont_bits n3)%N)
            (utf8_decode r3)
        else None
      | _ => None
      end
    else None
  end.

(** [s.startswith(prefix)] *)
Fixpoint startswith (s prefix : pystr) {struct prefix} : bool :=
  match prefix with
  | [] => true
  | c :: prefix' =>
    match s with
    | [] => false
    | d :: s' => (d =? c)%N && startswith s' prefix'
    end
  end.

(** ** Events *)

(** An [arrow.Arrow] timestamp: the calendar fields of a timezone-aware
    date and time. *)
Record Arrow : Type := mkArrow {
  year : Z;
  month : Z;
  day : Z;
  hour : Z;
  minute : Z;
  second : Z;
  microsecond : Z;
  utcoffset : Z
}.

(** Modelled from the spec: the envelope returned by
    [linehaul.syslog.parser.parse], of which the server reads only the
    message body. *)
Record SyslogMessage : Type := mkSyslogMessage {
  message : pystr
}.

(** Modelled from the spec: the event returned by
    [linehaul.events.parser.parse], an immutable record with a timestamp and
    the fields that describe the download. *)
Record Download : Type := mkDownload {
  timestamp : Arrow;
  fields : list (pystr * pystr)
}.

(** ** [parse_line] *)

Section ParseLine.

(** [linehaul.syslog.parser.parse] and [linehaul.events.parser.parse], which
    fail on malformed input. *)
Variable syslog_parse : pystr -> result SyslogMessage.
Variable event_parse : pystr -> result Download.

(** The [try] block of [parse_line] with its [except ValueError] clause. *)
Definition parse_message (line : pystr) : result (option Download) :=
  match syslog_parse line with
  | Raise e =>
    if isinstance_ValueError e then Return None else Raise e
  | Return msg =>
    match event_parse (message msg) with
    | Raise e =>
      if isinstance_ValueError e then Return None else Raise e
    | Return event => Return (Some event)
    end
  end.

Definition parse_line (line : bytes) (token : option pystr)
  : result (option Download) :=
  match utf8_decode line with
  | None => Raise UnicodeDecodeError
  | Some line =>
    match token with
    | Some token =>
      if negb (startswith line token) then Return None
      else parse_message (skipn (List.length token) line)
    | None => parse_message line
    end
  end.

End ParseLine.

(** ** [Arrow.format]

    The part of arrow's formatter that renders years, months and days.  Its
    pattern [YYY?Y?|MM?M?M?|Do|DD?D?D?|...] is matched greedily from the
    left, so a format string splits into runs of at most four equal pattern
    letters. *)

(** [str(n)] for an [int]. *)
Definition str_int (n : Z) : string := NilZero.string_of_int (Z.to_int n).

Fixpoint zeros (n : nat) : string :=
  match n with
  | O => EmptyString
  | S n' => String "0" (zeros n')
  end.

(** ['{0:0wd}'.format(n)] for a non-negative [n]. *)
Definition format_0d (w : nat) (n : Z) : string :=
  let s := str_int n in
  (zeros (w - String.length s) ++ s)%string.

(** [datetime]'s calendar. *)
Definition is_leap (y : Z) : bool :=
  ((y mod 4 =? 0) && (negb (y mod 100 =? 0) || (y mod 400 =? 0)))%Z.

Definition DAYS_IN_MONTH : list Z :=
  [-1; 31; 28; 31; 30; 31; 30; 31; 31; 30; 31; 30; 31]%Z.

Definition DAYS_BEFORE_MONTH : list Z :=
  [-1; 0; 31; 59; 90; 120; 151; 181; 212; 243; 273; 304; 334]%Z.

Definition days_in_month (y m : Z) : Z :=
  if (m =? 2)%Z && is_leap y then 29%Z
  else nth (Z.to_nat m) DAYS_IN_MONTH 0%Z.

Definition days_before_month (y m : Z) : Z :=
  (nth (Z.to_nat m) DAYS_BEFORE_MONTH 0
   + (if (2 <? m) && is_leap y then 1 else 0))%Z.

(** [dt.timetuple().tm_yday] *)
Definition tm_yday (dt : Arrow) : Z :=
  (days_before_month (year dt) (month dt) + day dt)%Z.

(** The dates a [datetime] can hold. *)
Definition valid_date (dt : Arrow) : Prop :=
  (1 <= year dt <= 9999 /\ 1 <= month dt <= 12
   /\ 1 <= day dt <= days_in_month (year dt) (month dt))%Z.

(** The calendar day of a timestamp. *)
Definition calendar_day (dt : Arrow) : Z * Z * Z :=
  (year dt, month dt, day dt).

Inductive fmt_token : Type :=
| Tok (letter : ascii) (n : nat)
| Lit (c : ascii).

Definition date_letter (c : ascii) : bool :=
  ((c =? "Y") || (c =? "M") || (c =? "D"))%char.

(** The characters that start the other alternatives of arrow's pattern
    (weekdays, clock fields, zones, ordinals, escapes): formats that
    contain one are outside this model. *)
Definition other_pattern_char (c : ascii) : bool :=
  existsb (Ascii.eqb c)
    (list_ascii_of_string "dHhmsSZaAXxWo[\").

Fixpoint scan (pending : option (ascii * nat)) (l : list ascii)
  : list fmt_token :=
  match l with
  | [] =>
    match pending with
    | Some (p, n) => [Tok p n]
    | None => []
    end
  | c :: l' =>
    match pending with
    | Some (p, n) =>
      if (c =? p)%char && (n <? 4)%nat then scan (Some (p, S n)) l'
      else if date_letter c then Tok p n :: scan (Some (c, 1%nat)) l'
      else Tok p n :: Lit c :: scan None l'
    | None =>
      if date_letter c then scan (Some (c, 1%nat)) l'
      else Lit c :: scan None l'
    end
  end.

Definition tokenize (fmt : string) : list fmt_token :=
  scan None (list_ascii_of_string fmt).

(** [DateTimeFormatter._format_token], for the numeric date tokens. *)
Definition format_token (dt : Arrow) (t : fmt_token) : option string :=
  match t with
  | Lit c =>
    if other_pattern_char c then None else Some (String c EmptyString)
  | Tok c n =>
    if (c =? "Y")%char then
      match n with
      | 4%nat => Some (format_0d 4 (year dt))
      | 2%nat => Some (substring 2 2 (format_0d 4 (year dt)))
      | 1%nat => Some "Y"%string
      | _ => None
      end
    else if (c =? "M")%char then
      match n with
      | 1%nat => Some (str_int (month dt))
      | 2%nat => Some (format_0d 2 (month dt))
      | _ => None
      end
    else
      match n with
      | 1%nat => Some (str_int (day dt))
      | 2%nat => Some (format_0d 2 (day dt))
      | 3%nat => Some (str_int (tm_yday dt))
      | 4%nat => Some (format_0d 3 (tm_yday dt))
      | _ => None
      end
  end.

Fixpoint format_tokens (dt : Arrow) (ts : list fmt_token) : option string :=
  match ts with
  | [] => Some EmptyString
  | t :: ts' =>
    match format_token dt t, format_tokens dt ts' with
    | Some s, Some r => Some (s ++ r)%string
    | _, _ => None
    end
  end.

(** [dt.format(fmt)] *)
Definition arrow_format (dt : Arrow) (fmt : string) : option string :=
  format_tokens dt (tokenize fmt).

(** ** [extract_item_date] *)

Definition extract_item_date (item : Download) : string :=
  match arrow_format (timestamp item) "YYYYMDDD" with
  | Some s => s
  | None => EmptyString
  end.

(** ** [sorted] and [itertools.groupby] *)

Section Grouping.

Variable A : Type.
Variable key : A -> string.

(** [sorted(l, key=key)] is stable and compares keys with [<] only: an
    element goes in front of the first one whose key is not smaller. *)
Fixpoint insert_sorted (x : A) (l : list A) : list A :=
  match l with
  | [] => [x]
  | y :: l' =>
    if String.ltb (key y) (key x) then y :: insert_sorted x l'
    else x :: y :: l'
  end.

Fixpoint sorted (l : list A) : list A :=
  match l with
  | [] => []
  | x :: l' => insert_sorted x (sorted l')
  end.

(** [groupby_from k l] reads [l] while the target key is [k]: it returns
    the rest of the current group and the groups that follow.  A group is
    its key, its first item and its other items. *)
Fixpoint groupby_from (k : string) (l : list A)
  : list A * list (string * (A * list A)) :=
  match l with
  | [] => ([], [])
  | x :: l' =>
    if String.eqb (key x) k then
      let (run, later) := groupby_from k l' in (x :: run, later)
    else
      let (run, later) := groupby_from (key x) l' in
      ([], (key x, (x, run)) :: later)
  end.

(** [itertools.groupby(l, key)] *)
Definition groupby (l : list A) : list (string * (A * list A)) :=
  match l with
  | [] => []
  | x :: l' =>
    let (run, later) := groupby_from (key x) l' in
    (key x, (x, run)) :: later
  end.

(** [list(items)] for a group. *)
Definition group_items (g : string * (A * list A)) : list A :=
  fst (snd g) :: snd (snd g).

End Grouping.

(** ** [uuid.uuid4] and [str(uuid)] *)

(** A UUID is its 128-bit integer. *)
Definition UUID := N.

Definition hex_digit (d : N) : ascii :=
  nth (N.to_nat d) (list_ascii_of_string "0123456789abcdef") "0"%char.

(** ['%0wx' % n] *)
Fixpoint hex_fixed (w : nat) (n : N) : list ascii :=
  match w with
  | O => []
  | S w' => hex_fixed w' (n / 16)%N ++ [hex_digit (n mod 16)%N]
  end.

(** [UUID.__str__]: the 32 hexadecimal digits in groups of 8-4-4-4-12. *)
Definition dashed (h : list ascii) : list ascii :=
  firstn 8 h ++ "-"%char :: firstn 4 (skipn 8 h)
  ++ "-"%char :: firstn 4 (skipn 12 h)
  ++ "-"%char :: firstn 4 (skipn 16 h)
  ++ "-"%char :: skipn 20 h.

Definition uuid_str (u : UUID) : string :=
  string_of_list_ascii (dashed (hex_fixed 32 u)).

(** ** [compute_batches] *)

(** A batch record: [{"insertId": ..., "json": ...}]. *)
Record BatchRecord (Row : Type) : Type := mkBatchRecord {
  insertId : string;
  json : Row
}.

Section ComputeBatches.

(** The rows [_cattr.unstructure] makes of events. *)
Variable Row : Type.
Variable unstructure : Download -> Row.

(** The identifier generator: [draw n] is the UUID of the [n]-th call of
    [uuid.uuid4] in the process.  The state of the generator is the number
    of identifiers drawn so far. *)
Variable draw : nat -> UUID.

Definition uuid4 (drawn : nat) : UUID * nat := (draw drawn, S drawn).

(** The list comprehension that pairs each row with a fresh identifier. *)
Fixpoint make_records (rows : list Row) (drawn : nat)
  : list (BatchRecord Row) * nat :=
  match rows with
  | [] => ([], drawn)
  | row :: rows' =>
    let (u, drawn1) := uuid4 drawn in
    let (records, drawn2) := make_records rows' drawn1 in
    (mkBatchRecord (uuid_str u) row :: records, drawn2)
  end.

(** The body of the [for] loop, run over the groups in order.  The
    generator is consumed to its end by [sender], so the pairs it yields
    are collected in a list. *)
Fixpoint yield_batches (groups : list (string * (Download * list Download)))
  (drawn : nat) : list (string * list (BatchRecord Row)) * nat :=
  match groups with
  | [] => ([], drawn)
  | g :: groups' =>
    let items := group_items g in
    let (records, drawn1) := make_records (map unstructure items) drawn in
    let (batches, drawn2) := yield_batches groups' drawn1 in
    ((extract_item_date (fst (snd g)), records) :: batches, drawn2)
  end.

Definition compute_batches (all_items : list Download) (drawn : nat)
  : list (string * list (BatchRecord Row)) * nat :=
  yield_batches
    (groupby extract_item_date (sorted extract_item_date all_items)) drawn.

End ComputeBatches.

(** ** What the server does: I/O actions and log records *)

(** Durations and instants are exact rationals, in seconds. *)
Definition seconds := Q.

Section Server.

Variable Row : Type.
Variable unstructure : Download -> Row.
Variable draw : nat -> UUID.
Variable syslog_parse : pystr -> result SyslogMessage.
Variable event_parse : pystr -> result Download.

(** The keyword arguments [sender] binds into each [send_batch] task. *)
Record send_task : Type := mkSendTask {
  task_table : string;
  task_template_suffix : string;
  task_batch : list (BatchRecord Row);
  task_retry_max_attempts : option Z;
  task_retry_max_wait : option seconds;
  task_retry_multiplier : option seconds;
  task_api_timeout : option seconds
}.

Inductive log_record : Type :=
| ConnectionReceived (peer_id : UUID) (peer : pystr)
| ReceivedEvent (peer_id : UUID) (event : Download)
| ConnectionLost (peer_id : UUID) (peer : pystr)
| BufferTooLarge (peer_id : UUID)
| TruncatedLine (peer_id : UUID)
| BeforeSleep (e : exn) (wait : seconds)
| TimedOutSending (items : nat)
| ErrorSending (e : exn) (items : nat)
| BatchTimedOut (items : nat)
| ItemsAccumulated (items : nat).

Inductive action : Type :=
| ReceiveSome (recv_size : Z)
| QueuePut (event : Download)
| Aclose (grace : seconds)
| InsertAll (table : string) (batch : list (BatchRecord Row))
    (template_suffix : string) (api_timeout : seconds)
| Sleep (wait : seconds)
| Log (r : log_record)
| StartSoon (task : send_task).

(** ** [handle_connection] *)

(** The line framer [linehaul.protocol.LineReceiver], built from a decode
    callback and a maximum line size.  [recieve_data] yields the events of
    the lines it has framed and then returns or raises; [close] raises when
    the stream ended inside a line. *)
Variable LineReceiver : Type.
Variable new_LineReceiver :
  (bytes -> result (option Download)) -> option Z -> LineReceiver.
Variable recieve_data :
  LineReceiver -> bytes -> list Download * result LineReceiver.
Variable close : LineReceiver -> result unit.

(** [await stream.receive_some(recv_size)] under its
    [except trio.BrokenStreamError]. *)
Definition receive_or_empty (r : result bytes) : result bytes :=
  match r with
  | Raise BrokenStreamError => Return []
  | _ => r
  end.

(** The [for] loop that pushes the events of one chunk. *)
Definition put_events (peer_id : UUID) (events : list Download)
  : list action :=
  flat_map (fun event => [Log (ReceivedEvent peer_id event); QueuePut event])
           events.

(** The last round of the loop, entered with [data = b""]. *)
Definition end_of_stream (peer_id : UUID) (peer : pystr) (recv_size : Z)
  (lr : LineReceiver) : list action * result unit :=
  let (events, after) := recieve_data lr [] in
  let pushed := ReceiveSome recv_size :: put_events peer_id events in
  match after with
  | Raise e => (pushed, Raise e)
  | Return lr' =>
    (pushed ++ [Log (ConnectionLost peer_id peer)], close lr')
  end.

(** The [while True] loop.  [reads] lists what the successive reads of the
    stream give; a stream with nothing more to give has been closed by the
    peer and reads as [b""]. *)
Fixpoint receive_loop (peer_id : UUID) (peer : pystr) (recv_size : Z)
  (lr : LineReceiver) (reads : list (result bytes))
  : list action * result unit :=
  match reads with
  | [] => end_of_stream peer_id peer recv_size lr
  | r :: reads' =>
    match receive_or_empty r with
    | Raise e => ([ReceiveSome recv_size], Raise e)
    | Return [] => end_of_stream peer_id peer recv_size lr
    | Return data =>
      let (events, after) := recieve_data lr data in
      let pushed := ReceiveSome recv_size :: put_events peer_id events in
      match after with
      | Raise e => (pushed, Raise e)
      | Return lr' =>
        let (later, res) := receive_loop peer_id peer recv_size lr' reads' in
        (pushed ++ later, res)
      end
    end
  end.

(** The [except] clauses around the loop. *)
Definition framing_handlers (peer_id : UUID) (res : result unit)
  : list action * result unit :=
  match res with
  | Raise BufferTooLargeError => ([Log (BufferTooLarge peer_id)], Return tt)
  | Raise TruncatedLineError => ([Log (TruncatedLine peer_id)], Return tt)
  | _ => ([], res)
  end.

(** [getpeername] is [None] when the socket call fails with [OSError]. *)
Definition handle_connection (getpeername : option pystr)
  (reads : list (result bytes)) (token : option pystr)
  (max_line_size : option Z) (recv_size : option Z) (drawn : nat)
  : list action * result unit * nat :=
  let recv_size := match recv_size with Some n => n | None => 8192%Z end in
  let (peer_id, drawn) := uuid4 draw drawn in
  let peer :=
    match getpeername with
    | Some peer => peer
    | None => [85; 110; 107; 110; 111; 119; 110]%N
    end in
  let lr :=
    new_LineReceiver
      (fun line => parse_line syslog_parse event_parse line token)
      max_line_size in
  let (looped, res) := receive_loop peer_id peer recv_size lr reads in
  let (handled, res) := framing_handlers peer_id res in
  (Log (ConnectionReceived peer_id peer) :: looped ++ handled
     ++ [Aclose 30], res, drawn).

(** ** tenacity *)

(** [retry_if_exception_type((trio.TooSlowError, trio.BrokenStreamError))] *)
Definition retry_if_transient (e : exn) : bool :=
  match e with
  | TooSlowError | BrokenStreamError => true
  | _ => false
  end.

(** [stop_after_attempt(max_attempt_number)] *)
Definition stop_after_attempt (max_attempt_number : Z) (attempt_number : nat)
  : bool :=
  (max_attempt_number <=? Z.of_nat attempt_number)%Z.

(** [stop_never], the default of a bare [@retry] *)
Definition stop_never (attempt_number : nat) : bool := false.

(** [wait_exponential(multiplier, max)]: the wait after the attempt numbered
    [attempt_number] is [multiplier * 2 ** attempt_number], kept between
    zero and [max].  This is the exponent of the tenacity releases the
    module was written against; later releases start one power lower. *)
Definition wait_exponential (multiplier max : seconds) (attempt_number : nat)
  : seconds :=
  Qmax 0 (Qmin (multiplier * inject_Z (2 ^ Z.of_nat attempt_number)) max).

(** [wait_none], the default of a bare [@retry] *)
Definition wait_none (attempt_number : nat) : seconds := 0.

(** The loop of [Retrying.call] with [reraise=True] and a [before_sleep]
    log: attempt; return a result; re-raise an exception the predicate
    does not retry, or the last one once [stop] holds; otherwise log, sleep
    and attempt again.  [attempt n] is what the wrapped call does on
    attempt [n]; [fuel] bounds the number of attempts explored. *)
Fixpoint retrying (retry : exn -> bool) (stop : nat -> bool)
  (wait : nat -> seconds) (attempt : nat -> list action * result unit)
  (fuel : nat) (attempt_number : nat) : option (list action * result unit) :=
  match fuel with
  | O => None
  | S fuel' =>
    let (done, res) := attempt attempt_number in
    match res with
    | Return r => Some (done, Return r)
    | Raise e =>
      if negb (retry e) then Some (done, Raise e)
      else if stop attempt_number then Some (done, Raise e)
      else
        let slept :=
          [Log (BeforeSleep e (wait attempt_number));
           Sleep (wait attempt_number)] in
        match retrying retry stop wait attempt fuel' (S attempt_number) with
        | Some (later, res') => Some (done ++ slept ++ later, res')
        | None => None
        end
    end
  end.

(** ** [actually_send_batch] and [send_batch] *)

(** What one call of the sink's [insert_all] does: it returns, it raises,
    or it is still running when the deadline of the attempt passes. *)
Inductive sink_outcome : Type :=
| Inserted
| Failed (e : exn)
| Hung.

(** [with trio.fail_after(api_timeout): await bq.insert_all(...)] *)
Definition fail_after (o : sink_outcome) : result unit :=
  match o with
  | Inserted => Return tt
  | Failed e => Raise e
  | Hung => Raise TooSlowError
  end.

(** The body of [actually_send_batch]: one attempt.  [bq n] is the outcome
    of the [n]-th call of [insert_all] for this batch. *)
Definition actually_send_batch_body (bq : nat -> sink_outcome)
  (table template_suffix : string) (batch : list (BatchRecord Row))
  (api_timeout : option seconds) (attempt_number : nat)
  : list action * result unit :=
  let api_timeout :=
    match api_timeout with Some t => t | None => 15 end in
  ([InsertAll table batch template_suffix api_timeout],
   fail_after (bq attempt_number)).

(** [actually_send_batch] as decorated: it never stops and never waits. *)
Definition actually_send_batch (bq : nat -> sink_outcome)
  (table template_suffix : string) (batch : list (BatchRecord Row))
  (api_timeout : option seconds) (fuel : nat)
  : option (list action * result unit) :=
  retrying retry_if_transient stop_never wait_none
    (actually_send_batch_body bq table template_suffix batch api_timeout)
    fuel 1.

Definition send_batch (bq : nat -> sink_outcome)
  (table template_suffix : string) (batch : list (BatchRecord Row))
  (retry_max_attempts : option Z) (retry_max_wait : option seconds)
  (retry_multiplier : option seconds) (api_timeout : option seconds)
  (fuel : nat) : option (list action * result unit) :=
  let retry_max_attempts :=
    match retry_max_attempts with Some n => n | None => 15%Z end in
  let retry_max_wait :=
    match retry_max_wait with Some w => w | None => 60 end in
  let retry_multiplier :=
    match retry_multiplier with Some m => m | None => 1 # 2 end in
  let send :=
    retrying retry_if_transient (stop_after_attempt retry_max_attempts)
      (wait_exponential retry_multiplier retry_max_wait)
      (actually_send_batch_body bq table template_suffix batch api_timeout)
  in
  match send fuel 1%nat with
  | None => None
  | Some (done, Return _) => Some (done, Return tt)
  | Some (done, Raise e) =>
    match e with
    | TooSlowError =>
      Some (done ++ [Log (TimedOutSending (List.length batch))], Return tt)
    | _ =>
      if isinstance_Exception e then
        Some (done ++ [Log (ErrorSending e (List.length batch))], Return tt)
      else Some (done, Raise e)
    end
  end.

(** ** [sender] *)

(** The queue as the dispatcher sees it: the events it will hold, in the
    order they leave it, each with the instant it becomes available. *)
Definition arrivals := list (seconds * Download).

(** The inner [while] loop under [trio.move_on_after]: [q.get()] returns the
    next event as soon as it is available, unless the deadline comes first;
    then the scope is cancelled.  The result is the batch, whether the
    cancellation was caught, the clock and the events left. *)
Fixpoint accumulate (batch_size : Z) (deadline now : seconds)
  (batch : list Download) (q : arrivals)
  : list Download * bool * seconds * arrivals :=
  if (Z.of_nat (List.length batch) <? batch_size)%Z then
    match q with
    | [] => (batch, true, Qmax now deadline, [])
    | (t, event) :: q' =>
      let t' := Qmax now t in
      if Qlt_le_dec t' deadline then
        accumulate batch_size deadline t' (batch ++ [event]) q'
      else (batch, true, Qmax now deadline, q)
    end
  else (batch, false, now, q).

(** One turn of the [while True] loop of [sender]. *)
Definition sender_cycle (table : string) (batch_size : option Z)
  (batch_timeout : option seconds) (retry_max_attempts : option Z)
  (retry_max_wait retry_multiplier api_timeout : option seconds)
  (now : seconds) (q : arrivals) (drawn : nat)
  : list action * (seconds * arrivals * nat) :=
  let batch_size := match batch_size with Some n => n | None => 500%Z end in
  let batch_timeout :=
    match batch_timeout with Some t => t | None => 30 end in
  let '(batch, cancelled_caught, now', q') :=
    accumulate batch_size (now + batch_timeout) now [] q in
  let logged :=
    match batch with
    | [] => []
    | _ :: _ =>
      if cancelled_caught then [Log (BatchTimedOut (List.length batch))]
      else [Log (ItemsAccumulated (List.length batch))]
    end in
  let (batches, drawn') := compute_batches unstructure draw batch drawn in
  (logged
   ++ map (fun b : string * list (BatchRecord Row) =>
             StartSoon (mkSendTask table (fst b) (snd b) retry_max_attempts
                          retry_max_wait retry_multiplier api_timeout))
          batches,
   (now', q', drawn')).

(** [sender] run for a number of turns of its loop. *)
Fixpoint sender (table : string) (batch_size : option Z)
  (batch_timeout : option seconds) (retry_max_attempts : option Z)
  (retry_max_wait retry_multiplier api_timeout : option seconds)
  (cycles : nat) (now : seconds) (q : arrivals) (drawn : nat)
  : list action * (seconds * arrivals * nat) :=
  match cycles with
  | O => ([], (now, q, drawn))
  | S cycles' =>
    let '(first, (now', q', drawn')) :=
      sender_cycle table batch_size batch_timeout retry_max_attempts
        retry_max_wait retry_multiplier api_timeout now q drawn in
    let '(later, final) :=
      sender table batch_size batch_timeout retry_max_attempts
        retry_max_wait retry_multiplier api_timeout cycles' now' q' drawn' in
    (first ++ later, final)
  end.

End Server.

Arguments ReceiveSome {Row} recv_size.
Arguments QueuePut {Row} event.
Arguments Aclose {Row} grace.
Arguments Sleep {Row} wait.
Arguments Log {Row} r.
Arguments put_events {Row} peer_id events.
Arguments end_of_stream {Row} [LineReceiver] recieve_data close peer_id peer
  recv_size lr.
Arguments receive_loop {Row} [LineReceiver] recieve_data close peer_id peer
  recv_size lr reads.
Arguments framing_handlers {Row} peer_id res.

(** ** Sample collaborators, used to run the definitions on concrete input *)

(** A parser that accepts every non-empty text as an envelope. *)
Definition sample_syslog_parse (line : pystr) : result SyslogMessage :=
  match line with
  | [] => Raise ValueError
  | _ => Return (mkSyslogMessage line)
  end.

(** A parser that dates every event on 23 April 2018. *)
Definition sample_event_parse (msg : pystr) : result Download :=
  Return (mkDownload (mkArrow 2018 4 23 12 0 0 0 0) [(msg, msg)]).

(** Modelled from the spec: a line framer as the spec describes
    [linehaul.protocol.LineReceiver], which is not part of the module.  It
    buffers the bytes it receives, hands every line that ends in a newline
    to the decode callback and yields the events decoded, raises
    [BufferTooLargeError] when the unterminated rest is longer than the
    maximum line size, and on [close] raises [TruncatedLineError] when bytes
    are left in the buffer. *)
Record sample_framer : Type := mkSampleFramer {
  framer_callback : bytes -> result (option Download);
  framer_max_line_size : Z;
  framer_buffer : bytes
}.

Definition new_sample_framer (callback : bytes -> result (option Download))
  (max_line_size : option Z) : sample_framer :=
  mkSampleFramer callback
    (match max_line_size with Some n => n | None => 16384%Z end) [].

(** The complete lines of [data], without their newline, and the rest;
    [cur] holds the bytes of the current line in reverse. *)
Fixpoint split_lines (cur data : bytes) : list bytes * bytes :=
  match data with
  | [] => ([], rev cur)
  | b :: data' =>
    if Byte.eqb b x0a then
      let (lines, rest) := split_lines [] data' in (rev cur :: lines, rest)
    else split_lines (b :: cur) data'
  end.

Fixpoint decode_lines (callback : bytes -> result (option Download))
  (lines : list bytes) : list Download * result unit :=
  match lines with
  | [] => ([], Return tt)
  | line :: lines' =>
    match callback line with
    | Raise e => ([], Raise e)
    | Return None => decode_lines callback lines'
    | Return (Some event) =>
      let (events, res) := decode_lines callback lines' in
      (event :: events, res)
    end
  end.

Definition sample_recieve_data (lr : sample_framer) (data : bytes)
  : list Download * result sample_framer :=
  let (lines, rest) := split_lines [] (framer_buffer lr ++ data) in
  let (events, res) := decode_lines (framer_callback lr) lines in
  match res with
  | Raise e => (events, Raise e)
  | Return _ =>
    if (framer_max_line_size lr <? Z.of_nat (List.length rest))%Z
    then (events, Raise BufferTooLargeError)
    else (events,
          Return (mkSampleFramer (framer_callback lr)
                    (framer_max_line_size lr) rest))
  end.

Definition sample_close (lr : sample_framer) : result unit :=
  match framer_buffer lr with
  | [] => Return tt
  | _ :: _ => Raise TruncatedLineError
  end.

(** [handle_connection] over the sample framer and parsers, with a
    generator that counts. *)
Definition sample_connection (reads : list (result bytes))
  (token : option pystr) (max_line_size : option Z)
  : list (action unit) * result unit * nat :=
  handle_connection unit N.of_nat sample_syslog_parse sample_event_parse
    new_sample_framer sample_recieve_data sample_close None reads token
    max_line_size None 0.

(** The text of an ASCII string, as bytes and as code points. *)
Definition ascii_bytes (s : string) : bytes := list_byte_of_string s.

Definition ascii_text (s : string) : pystr :=
  map Byte.to_N (list_byte_of_string s).

(** ** Auxiliary definitions for the proofs about day keys *)

(** Reading a decimal numeral back. *)
Definition read_int (s : string) : Z :=
  match NilZero.uint_of_string s with
  | Some u => Z.of_uint u
  | None => 0%Z
  end.

(** The integers [1 .. n]. *)
Definition upto (n : nat) : list Z := map Z.of_nat (seq 1 n).

(** The year part of a key has four characters and reads back. *)
Definition year_part_ok (y : Z) : bool :=
  (String.length (format_0d 4 y) =? 4)%nat
  && (read_int (format_0d 4 y) =? y)%Z.

(** The month and day-of-year part of a key, by leap flag. *)
Definition day_part (leap : bool) (m d : Z) : string :=
  (str_int m
   ++ str_int (nth (Z.to_nat m) DAYS_BEFORE_MONTH 0
               + (if (2 <? m) && leap then 1 else 0) + d)%Z)%string.

Definition day_in_month (leap : bool) (m d : Z) : bool :=
  (d <=? (if (m =? 2) && leap then 29
          else nth (Z.to_nat m) DAYS_IN_MONTH 0))%Z.

(** No two days of a year share their day part. *)
Definition day_parts_distinct (leap : bool) : bool :=
  forallb (fun m => forallb (fun d => forallb (fun m' => forallb (fun d' =>
    implb (day_in_month leap m d && day_in_month leap m' d'
           && String.eqb (day_part leap m d) (day_part leap m' d'))
          ((m =? m') && (d =? d'))%Z)
    (upto 31)) (upto 12)) (upto 31)) (upto 12).

(** ** Auxiliary definitions for the proofs about grouping *)

(** [x] may stand before [y] in a list sorted by key. *)
Definition key_le (A : Type) (key : A -> string) (x y : A) : Prop :=
  String.ltb (key y) (key x) = false.

(** The key of one group is below the key of the other. *)
Definition group_lt (A : Type) (g h : string * (A * list A)) : Prop :=
  String.ltb (fst g) (fst h) = true.

(** ** Auxiliary definitions for the proofs about batches *)

(** The insertion identifiers of the batches of one call, in order. *)
Definition batch_ids (Row : Type)
  (batches : list (string * list (BatchRecord Row))) : list string :=
  List.concat (map (fun b => map (@insertId Row) (snd b)) batches).

(** ** Auxiliary definitions for the proofs about sending *)

(** An outcome the retry predicate retries: a timeout or a broken stream. *)
Definition transient_failure (o : sink_outcome) : Prop :=
  o = Hung \/ o = Failed TooSlowError \/ o = Failed BrokenStreamError.

(** The exception a failed attempt raises. *)
Definition attempt_exn (o : sink_outcome) : exn :=
  match fail_after o with
  | Raise e => e
  | Return _ => TooSlowError
  end.

(** The record [send_batch] logs when it drops a batch. *)
Definition drop_record (e : exn) (items : nat) : log_record :=
  match e with
  | TooSlowError => TimedOutSending items
  | _ => ErrorSending e items
  end.

Definition is_attempt (Row : Type) (a : action Row) : bool :=
  match a with
  | InsertAll _ _ _ _ => true
  | _ => false
  end.

(** The number of calls of the sink in a trace. *)
Definition count_attempts (Row : Type) (trace : list (action Row)) : nat :=
  List.length (filter (@is_attempt Row) trace).

(** Actions that hand work back to the pipeline: a push on the queue or a
    new task. *)
Definition requeues (Row : Type) (a : action Row) : bool :=
  match a with
  | QueuePut _ | StartSoon _ => true
  | _ => false
  end.

(** ** Auxiliary definitions for the proofs about connections *)

Definition is_aclose (Row : Type) (a : action Row) : bool :=
  match a with
  | Aclose _ => true
  | _ => false
  end.

(** What the receive loop does: reads, pushes, and the records that go with
    them. *)
Definition loop_action (Row : Type) (a : action Row) : bool :=
  match a with
  | ReceiveSome _ | QueuePut _ => true
  | Log (ReceivedEvent _ _) | Log (ConnectionLost _ _) => true
  | _ => false
  end.

(** ** Auxiliary definitions for the proofs about time *)

(** The time a trace can take at most: every call of the sink lasts up to
    its timeout and every sleep lasts its wait. *)
Definition time_budget (Row : Type) (trace : list (action Row)) : seconds :=
  fold_right
    (fun a t =>
       match a with
       | InsertAll _ _ _ timeout => timeout + t
       | Sleep wait => wait + t
       | _ => t
       end)
    0 trace.

(** ** Auxiliary definitions for the proofs about dispatch *)

(** The batches of the send tasks a trace starts, in order. *)
Definition started_batches (Row : Type) (trace : list (action Row))
  : list (list (BatchRecord Row)) :=
  flat_map (fun a => match a with
                     | StartSoon task => [task_batch task]
                     | _ => []
                     end) trace.

(** The rows those batches carry. *)
Definition started_rows (Row : Type) (trace : list (action Row))
  : list Row :=
  List.concat (map (map (@json Row)) (started_batches trace)).

(** The insertion identifiers of the records of the send tasks a trace
    starts, in order. *)
Definition started_ids (Row : Type) (trace : list (action Row))
  : list string :=
  List.concat (map (map (@insertId Row)) (started_batches trace)).

(** The date written as [YYYYMMDD] differs from the month and day part of
    a key on every day of a year. *)
Definition day_part_not_mmdd (leap : bool) : bool :=
  forallb (fun m => forallb (fun d =>
    negb (String.eqb (day_part leap m d)
                     (format_0d 2 m ++ format_0d 2 d)))
    (upto 31)) (upto 12).

(** ** Auxiliary definitions for the proofs about framing errors *)

(** The record [handle_connection] logs for a framing error. *)
Definition signal_record (peer_id : UUID) (e : exn) : log_record :=
  match e with
  | BufferTooLargeError => BufferTooLarge peer_id
  | _ => TruncatedLine peer_id
  end.

(** What the next read of a stream gives: the head of what is left of it, or
    [b""] when the peer has closed. *)
Definition next_read (rest : list (result bytes)) : result bytes :=
  match rest with
  | [] => Return []
  | r :: _ => r
  end.

(** The rounds of a connection up to a point where nothing has gone wrong:
    the framer is fed the chunks one after the other and returns from each
    call.  The result is what the handler is to do in these rounds, a read
    and the pushes of the events yielded for each chunk, and the framer
    after the last chunk; it is [None] when the framer raises on a chunk. *)
Fixpoint accepted_rounds (Row LineReceiver : Type)
  (recieve_data : LineReceiver -> bytes -> list Download * result LineReceiver)
  (peer_id : UUID) (recv_size : Z) (lr : LineReceiver) (chunks : list bytes)
  : option (list (action Row) * LineReceiver) :=
  match chunks with
  | [] => Some ([], lr)
  | data :: chunks' =>
    match recieve_data lr data with
    | (events, Return lr') =>
      match accepted_rounds Row recieve_data peer_id recv_size lr' chunks'
      with
      | Some (later, lr'') =>
        Some (ReceiveSome recv_size :: put_events peer_id events ++ later,
              lr'')
      | None => None
      end
    | (_, Raise _) => None
    end
  end.

(** * Properties *)

(** ** [parse_line] *)

Section ParseLineFacts.

Variable syslog_parse : pystr -> result SyslogMessage.
Variable event_parse : pystr -> result Download.

Lemma startswith_app (token rest : pystr) :
  startswith (token ++ rest) token = true.
Proof.
  induction token as [|c token IH]; simpl; [reflexivity|].
  now rewrite N.eqb_refl, IH.
Qed.

Lemma startswith_split (s token : pystr) :
  startswith s token = true -> s = token ++ skipn (List.length token) s.
Proof.
  revert s; induction token as [|c token IH]; intros s H; simpl in *.
  - reflexivity.
  - destruct s as [|d s]; [discriminate|].
    apply andb_prop in H as [Hd Hs].
    apply N.eqb_eq in Hd; subst d.
    f_equal; now apply IH.
Qed.

Lemma skipn_token_app (token rest : pystr) :
  skipn (List.length token) (token ++ rest) = rest.
Proof.
  induction token as [|c token IH]; simpl; auto.
Qed.

(** X2: a line that decodes is never the source of an error of
    [parse_line] as long as the two parsers fail with [ValueError] only: it
    gives an event or nothing. *)
Lemma parse_line_decoded_returns (line : bytes) (token : option pystr)
  (text : pystr) :
  utf8_decode line = Some text ->
  (forall s e, syslog_parse s = Raise e -> isinstance_ValueError e = true) ->
  (forall s e, event_parse s = Raise e -> isinstance_ValueError e = true) ->
  exists r, parse_line syslog_parse event_parse line token = Return r.
Proof.
  intros Hdec Hs He; unfold parse_line; rewrite Hdec.
  assert (Hm : forall s, exists r,
             parse_message syslog_parse event_parse s = Return r).
  { intro s; unfold parse_message.
    destruct (syslog_parse s) as [msg|e] eqn:E1.
    - destruct (event_parse (message msg)) as [ev|e] eqn:E2; eauto.
      rewrite (He _ _ E2); eauto.
    - rewrite (Hs _ _ E1); eauto. }
  destruct token as [tok|]; [|apply Hm].
  destruct (startswith text tok); simpl; [apply Hm|eauto].
Qed.

(** C1: [parse_line] does not turn every line into an event or nothing: the
    one-byte line [b"\xff"] is not valid UTF-8, [line.decode("utf8")] runs
    before the [try] block, and the [UnicodeDecodeError] leaves
    [parse_line], whatever the token and the parsers. *)
Theorem parse_line_invalid_utf8_raises (token : option pystr) :
  parse_line syslog_parse event_parse ["255"%byte] token
  = Raise UnicodeDecodeError.
Proof. reflexivity. Qed.

(** C6: with a token configured, a decoded line that does not start with the
    token gives no event, and a line that starts with it is parsed as a
    syslog envelope from exactly the text that follows the token. *)
Theorem parse_line_token_check (line : bytes) (token text : pystr) :
  utf8_decode line = Some text ->
  (startswith text token = false ->
   parse_line syslog_parse event_parse line (Some token) = Return None)
  /\ (startswith text token = true ->
      exists rest,
        text = token ++ rest
        /\ parse_line syslog_parse event_parse line (Some token)
           = parse_message syslog_parse event_parse rest).
Proof.
  intro Hdec; unfold parse_line; rewrite Hdec; split; intro Hs; rewrite Hs.
  - reflexivity.
  - exists (skipn (List.length token) text); split; [|reflexivity].
    now apply startswith_split.
Qed.

(** C10: the empty token is no token: for every line, [parse_line] with
    [token = ""] returns what it returns with [token = None]. *)
Theorem parse_line_empty_token (line : bytes) :
  parse_line syslog_parse event_parse line (Some [])
  = parse_line syslog_parse event_parse line None.
Proof.
  unfold parse_line; destruct (utf8_decode line); reflexivity.
Qed.

End ParseLineFacts.

(** C6 on two lines: ["tokenhello"] loses its token and is parsed from
    ["hello"]; ["tokfoo"] is rejected. *)
Lemma parse_line_token_check_witness :
  parse_line sample_syslog_parse sample_event_parse
    (ascii_bytes "tokenhello") (Some (ascii_text "token"))
  = parse_message sample_syslog_parse sample_event_parse (ascii_text "hello")
  /\ parse_line sample_syslog_parse sample_event_parse
       (ascii_bytes "tokfoo") (Some (ascii_text "token"))
     = Return None.
Proof.
  split.
  - destruct (@parse_line_token_check sample_syslog_parse sample_event_parse
                (ascii_bytes "tokenhello") (ascii_text "token")
                (ascii_text "tokenhello") eq_refl) as [_ H].
    destruct (H eq_refl) as [rest [Hrest Hparse]].
    rewrite Hparse; f_equal.
    injection Hrest as <-; reflexivity.
  - apply (@parse_line_token_check sample_syslog_parse sample_event_parse
             (ascii_bytes "tokfoo") (ascii_text "token")
             (ascii_text "tokfoo") eq_refl).
    reflexivity.
Defined.

(** ** [extract_item_date] *)

Lemma upto_forallb (P : Z -> bool) (n : nat) :
  forallb P (upto n) = true ->
  forall z, (1 <= z <= Z.of_nat n)%Z -> P z = true.
Proof.
  intros H z Hz.
  rewrite forallb_forall in H; apply H.
  unfold upto; apply in_map_iff.
  exists (Z.to_nat z); split; [lia|].
  apply in_seq; lia.
Qed.

Lemma string_app_inv (a c b d : string) :
  String.length a = String.length c ->
  (a ++ b)%string = (c ++ d)%string -> a = c /\ b = d.
Proof.
  revert c; induction a as [|x a IH]; intros [|y c] Hlen H;
    simpl in *; try discriminate.
  - now split.
  - injection H as -> H. injection Hlen as Hlen.
    destruct (IH c Hlen H) as [-> ->]; now split.
Qed.

Lemma string_app_empty (s : string) : (s ++ "")%string = s.
Proof. induction s; simpl; congruence. Qed.

(** The key is the four-digit year, the month and the day of the year, the
    last two without padding. *)
Lemma extract_item_date_eq (item : Download) :
  extract_item_date item
  = (format_0d 4 (year (timestamp item))
     ++ str_int (month (timestamp item))
     ++ str_int (tm_yday (timestamp item)))%string.
Proof.
  unfold extract_item_date, arrow_format; simpl.
  now rewrite string_app_empty.
Qed.

Lemma year_parts_ok : forallb year_part_ok (upto (Z.to_nat 9999)) = true.
Proof. vm_compute; reflexivity. Qed.

Lemma day_parts_distinct_ok (leap : bool) : day_parts_distinct leap = true.
Proof. destruct leap; vm_compute; reflexivity. Qed.

Lemma year_part_spec (y : Z) :
  (1 <= y <= 9999)%Z ->
  String.length (format_0d 4 y) = 4%nat /\ read_int (format_0d 4 y) = y.
Proof.
  intro Hy.
  assert (H : year_part_ok y = true)
    by (apply (upto_forallb _ _ year_parts_ok); lia).
  unfold year_part_ok in H; apply andb_prop in H as [H1 H2].
  split; [now apply Nat.eqb_eq|now apply Z.eqb_eq].
Qed.

Lemma day_part_spec (dt : Arrow) :
  (str_int (month dt) ++ str_int (tm_yday dt))%string
  = day_part (is_leap (year dt)) (month dt) (day dt).
Proof. reflexivity. Qed.

Lemma day_in_month_spec (dt : Arrow) :
  valid_date dt ->
  day_in_month (is_leap (year dt)) (month dt) (day dt) = true.
Proof.
  intros (_ & _ & _ & H); unfold day_in_month, days_in_month in *.
  now apply Z.leb_le.
Qed.

Lemma days_in_month_le_31 (y m : Z) : (days_in_month y m <= 31)%Z.
Proof.
  unfold days_in_month.
  destruct ((m =? 2)%Z && is_leap y); [lia|].
  destruct (Z.to_nat m) as [|[|[|[|[|[|[|[|[|[|[|[|[|[|n]]]]]]]]]]]]]];
    simpl; lia.
Qed.

Lemma day_part_inj (leap : bool) (m d m' d' : Z) :
  (1 <= m <= 12)%Z -> (1 <= d <= 31)%Z ->
  (1 <= m' <= 12)%Z -> (1 <= d' <= 31)%Z ->
  day_in_month leap m d = true -> day_in_month leap m' d' = true ->
  day_part leap m d = day_part leap m' d' -> m = m' /\ d = d'.
Proof.
  intros Hm Hd Hm' Hd' Hv Hv' Heq.
  pose proof (day_parts_distinct_ok leap) as H; unfold day_parts_distinct in H.
  apply (upto_forallb _ _) with (z := m) in H; [|simpl; lia].
  apply (upto_forallb _ _) with (z := d) in H; [|simpl; lia].
  apply (upto_forallb _ _) with (z := m') in H; [|simpl; lia].
  apply (upto_forallb _ _) with (z := d') in H; [|simpl; lia].
  rewrite Hv, Hv', Heq, String.eqb_refl in H; simpl in H.
  apply andb_prop in H as [H1 H2].
  split; now apply Z.eqb_eq.
Qed.

(** C3: events whose timestamps fall on the same calendar day get the same
    partition key, and events whose timestamps fall on different calendar
    days get different keys. *)
Theorem extract_item_date_calendar_day (a b : Download) :
  valid_date (timestamp a) -> valid_date (timestamp b) ->
  (calendar_day (timestamp a) = calendar_day (timestamp b) ->
   extract_item_date a = extract_item_date b)
  /\ (calendar_day (timestamp a) <> calendar_day (timestamp b) ->
      extract_item_date a <> extract_item_date b).
Proof.
  intros Ha Hb; rewrite !extract_item_date_eq; split.
  - unfold calendar_day; intro H; injection H as Hy Hm Hd.
    unfold tm_yday; now rewrite Hy, Hm, Hd.
  - intros Hne Heq; apply Hne; clear Hne.
    pose proof Ha as (Hya & Hma & Hda1 & Hda2).
    pose proof Hb as (Hyb & Hmb & Hdb1 & Hdb2).
    destruct (year_part_spec Hya) as [La Ra].
    destruct (year_part_spec Hyb) as [Lb Rb].
    apply string_app_inv in Heq; [|congruence].
    destruct Heq as [Hyear Hday].
    assert (Hy : year (timestamp a) = year (timestamp b)) by congruence.
    rewrite !day_part_spec, Hy in Hday.
    apply day_in_month_spec in Ha, Hb; rewrite Hy in Ha.
    pose proof (days_in_month_le_31 (year (timestamp a)) (month (timestamp a))).
    pose proof (days_in_month_le_31 (year (timestamp b)) (month (timestamp b))).
    apply day_part_inj in Hday; try assumption; try lia.
    destruct Hday as [Hm Hd]; unfold calendar_day; congruence.
Qed.

(** C3 on 11 January and 1 November 2018, whose keys are ["2018111"] and
    ["201811305"]. *)
Lemma extract_item_date_calendar_day_witness :
  extract_item_date (mkDownload (mkArrow 2018 1 11 9 30 0 0 0) [])
  <> extract_item_date (mkDownload (mkArrow 2018 11 1 23 59 59 0 0) []).
Proof.
  apply (@extract_item_date_calendar_day
           (mkDownload (mkArrow 2018 1 11 9 30 0 0 0) [])
           (mkDownload (mkArrow 2018 11 1 23 59 59 0 0) [])).
  - repeat split; vm_compute; intro H; discriminate H.
  - repeat split; vm_compute; intro H; discriminate H.
  - discriminate.
Defined.

(** ** [sorted] and [groupby] *)

Lemma ltb_lt (a b : string) : String.ltb a b = true <-> String_as_OT.lt a b.
Proof.
  unfold String.ltb; rewrite <- String_as_OT.cmp_lt.
  unfold String_as_OT.cmp; destruct (String.compare a b);
    split; congruence.
Qed.

Lemma ltb_trans (a b c : string) :
  String.ltb a b = true -> String.ltb b c = true -> String.ltb a c = true.
Proof.
  rewrite !ltb_lt; apply String_as_OT.lt_trans.
Qed.

Lemma ltb_irrefl (a : string) : String.ltb a a = false.
Proof.
  destruct (String.ltb a a) eqn:E; [|reflexivity].
  apply ltb_lt, String_as_OT.lt_not_eq in E.
  exfalso; apply E; reflexivity.
Qed.

Lemma ltb_connex (a b : string) :
  String.ltb a b = false -> String.ltb b a = false -> a = b.
Proof.
  unfold String.ltb; rewrite (String.compare_antisym b a).
  destruct (String.compare a b) eqn:E; simpl; try discriminate.
  intros _ _; now apply String.compare_eq_iff.
Qed.

Lemma ltb_asym (a b : string) :
  String.ltb a b = true -> String.ltb b a = false.
Proof.
  intro H; destruct (String.ltb b a) eqn:E; [|reflexivity].
  pose proof (ltb_trans _ _ _ H E) as F; now rewrite ltb_irrefl in F.
Qed.

(** [a <= b] as "not [b < a]" is transitive. *)
Lemma not_ltb_trans (a b c : string) :
  String.ltb b a = false -> String.ltb c b = false ->
  String.ltb c a = false.
Proof.
  intros Hab Hbc; destruct (String.ltb c a) eqn:E; [|reflexivity].
  destruct (String.ltb a b) eqn:Eab.
  - pose proof (ltb_trans _ _ _ E Eab) as F; congruence.
  - pose proof (ltb_connex _ _ Eab Hab); subst b; congruence.
Qed.

Section GroupingFacts.

Variable A : Type.
Variable key : A -> string.

Lemma insert_sorted_perm (x : A) (l : list A) :
  Permutation (insert_sorted key x l) (x :: l).
Proof.
  induction l as [|y l IH]; simpl; [reflexivity|].
  destruct (String.ltb (key y) (key x)); [|reflexivity].
  rewrite IH; apply perm_swap.
Qed.

Lemma sorted_perm (l : list A) : Permutation (sorted key l) l.
Proof.
  induction l as [|x l IH]; simpl; [reflexivity|].
  now rewrite insert_sorted_perm, IH.
Qed.

Lemma insert_sorted_ordered (x : A) (l : list A) :
  StronglySorted (key_le key) l -> StronglySorted (key_le key) (insert_sorted key x l).
Proof.
  induction 1 as [|y l Hs IH Hy]; simpl.
  - repeat constructor.
  - destruct (String.ltb (key y) (key x)) eqn:E.
    + constructor; [exact IH|].
      rewrite (insert_sorted_perm x l).
      constructor; [now apply ltb_asym|exact Hy].
    + constructor; [now constructor|].
      constructor; [exact E|].
      eapply Forall_impl; [|exact Hy].
      intros z Hz; unfold key_le in *; eapply not_ltb_trans; eassumption.
Qed.

Lemma sorted_ordered (l : list A) : StronglySorted (key_le key) (sorted key l).
Proof.
  induction l as [|x l IH]; simpl; [constructor|].
  now apply insert_sorted_ordered.
Qed.

(** What [groupby_from] returns, whatever the order of the list: the items
    in order, each group under the key of all its items. *)
Lemma groupby_from_spec (l : list A) (k : string) :
  let (run, later) := groupby_from key k l in
  run ++ List.concat (map (@group_items A) later) = l
  /\ Forall (fun x => key x = k) run
  /\ Forall (fun g => Forall (fun x => key x = fst g) (group_items g)) later.
Proof.
  revert k; induction l as [|x l IH]; intro k; simpl.
  - repeat split; constructor.
  - destruct (String.eqb_spec (key x) k) as [E|E].
    + specialize (IH k); destruct (groupby_from key k l) as [run later].
      destruct IH as (H1 & H2 & H3); repeat split; auto.
      simpl; now rewrite H1.
    + specialize (IH (key x)).
      destruct (groupby_from key (key x) l) as [run later].
      destruct IH as (H1 & H2 & H3); repeat split; auto.
      * simpl; now rewrite H1.
      * constructor; [|exact H3].
        unfold group_items; simpl; now constructor.
Qed.

(** On a list sorted by key, the groups that follow the current one have
    keys above the current key, in increasing order. *)
Lemma groupby_from_increasing (l : list A) (k : string) :
  StronglySorted (key_le key) l ->
  Forall (fun x => String.ltb (key x) k = false) l ->
  let (run, later) := groupby_from key k l in
  Forall (fun g => String.ltb k (fst g) = true) later
  /\ StronglySorted (@group_lt A) later.
Proof.
  intro Hs; revert k; induction Hs as [|x l Hs IH Hx]; intros k Hk; simpl.
  - split; constructor.
  - inversion Hk as [|? ? Hkx Hkl]; subst.
    destruct (String.eqb_spec (key x) k) as [E|E].
    + specialize (IH k Hkl); destruct (groupby_from key k l) as [run later].
      exact IH.
    + specialize (IH (key x) Hx).
      destruct (groupby_from key (key x) l) as [run later].
      destruct IH as [H1 H2].
      assert (Hlt : String.ltb k (key x) = true).
      { destruct (String.ltb k (key x)) eqn:F; [reflexivity|].
        exfalso; apply E; now apply ltb_connex. }
      split.
      * constructor; [exact Hlt|].
        eapply Forall_impl; [|exact H1].
        intros g Hg; eapply ltb_trans; eassumption.
      * constructor; [exact H2|exact H1].
Qed.

Lemma group_lt_NoDup (gs : list (string * (A * list A))) :
  StronglySorted (@group_lt A) gs -> NoDup (map fst gs).
Proof.
  induction 1 as [|g gs Hs IH Hg]; simpl; constructor; [|exact IH].
  rewrite in_map_iff; intros (h & Hk & Hin).
  rewrite Forall_forall in Hg; specialize (Hg h Hin).
  unfold group_lt in Hg; rewrite Hk, ltb_irrefl in Hg; discriminate.
Qed.

(** [groupby] after [sorted]: the groups hold the items of the list, each
    item once and under its own key, and no key comes twice. *)
Lemma groupby_sorted_spec (l : list A) :
  let groups := groupby key (sorted key l) in
  Permutation (List.concat (map (@group_items A) groups)) l
  /\ Forall (fun g => Forall (fun x => key x = fst g) (group_items g)) groups
  /\ NoDup (map fst groups).
Proof.
  pose proof (sorted_perm l) as Hp.
  pose proof (sorted_ordered l) as Hs.
  unfold groupby; destruct (sorted key l) as [|x s]; simpl.
  - repeat split; [exact Hp|constructor|constructor].
  - inversion Hs as [|? ? Hs' Hx]; subst.
    pose proof (groupby_from_spec s (key x)) as H.
    pose proof (@groupby_from_increasing s (key x) Hs' Hx) as I.
    destruct (groupby_from key (key x) s) as [run later].
    destruct H as (H1 & H2 & H3); destruct I as [I1 I2].
    repeat split.
    + simpl; now rewrite H1.
    + constructor; [|exact H3].
      unfold group_items; simpl; now constructor.
    + apply (group_lt_NoDup (gs := (key x, (x, run)) :: later)).
      now constructor.
Qed.

End GroupingFacts.

(** ** [compute_batches] *)

Section ComputeBatchesFacts.

Variable Row : Type.
Variable unstructure : Download -> Row.
Variable draw : nat -> UUID.

(** The string of the [n]-th identifier drawn. *)
Let id_of (n : nat) : string := uuid_str (draw n).

Lemma make_records_spec (rows : list Row) (drawn : nat) :
  let (records, drawn') := make_records draw rows drawn in
  map (@json Row) records = rows
  /\ map (@insertId Row) records = map id_of (seq drawn (List.length rows))
  /\ drawn' = (drawn + List.length rows)%nat.
Proof.
  revert drawn; induction rows as [|row rows IH]; intro drawn; simpl.
  - repeat split; lia.
  - specialize (IH (S drawn)).
    destruct (make_records draw rows (S drawn)) as [records drawn'].
    destruct IH as (H1 & H2 & H3); simpl.
    repeat split; [now rewrite H1|now rewrite H2|lia].
Qed.

Lemma yield_batches_spec
  (groups : list (string * (Download * list Download))) (drawn : nat) :
  let (batches, drawn') := yield_batches unstructure draw groups drawn in
  let items := List.concat (map (@group_items Download) groups) in
  map fst batches = map (fun g => extract_item_date (fst (snd g))) groups
  /\ Forall2 (fun b g => map (@json Row) (snd b)
                         = map unstructure (group_items g)) batches groups
  /\ batch_ids batches = map id_of (seq drawn (List.length items))
  /\ drawn' = (drawn + List.length items)%nat.
Proof.
  revert drawn; induction groups as [|g groups IH]; intro drawn.
  - simpl; repeat split; [constructor|lia].
  - cbn [yield_batches map List.concat].
    pose proof (make_records_spec (map unstructure (group_items g)) drawn)
      as R.
    destruct (make_records draw (map unstructure (group_items g)) drawn)
      as [records drawn1].
    destruct R as (R1 & R2 & R3).
    specialize (IH drawn1).
    destruct (yield_batches unstructure draw groups drawn1)
      as [batches drawn2].
    cbv zeta in IH; destruct IH as (H1 & H2 & H3 & H4).
    rewrite length_map in R2, R3.
    cbv zeta; cbn [map fst snd]; rewrite length_app.
    repeat split.
    + now rewrite H1.
    + now constructor.
    + unfold batch_ids in *; cbn [map List.concat snd].
      rewrite H3, R2, R3, seq_app, map_app; reflexivity.
    + lia.
Qed.

Lemma first_item_key (l : list Download) :
  Forall (fun g => extract_item_date (fst (snd g)) = fst g)
         (groupby extract_item_date (sorted extract_item_date l)).
Proof.
  destruct (groupby_sorted_spec extract_item_date l) as (_ & H & _).
  eapply Forall_impl; [|exact H].
  intros g Hg; unfold group_items in Hg; now inversion Hg.
Qed.

Lemma compute_batches_keys (all_items : list Download) (drawn : nat) :
  map fst (fst (compute_batches unstructure draw all_items drawn))
  = map fst (groupby extract_item_date (sorted extract_item_date all_items)).
Proof.
  unfold compute_batches.
  pose proof (yield_batches_spec
    (groupby extract_item_date (sorted extract_item_date all_items)) drawn)
    as H.
  destruct (yield_batches unstructure draw _ drawn) as [batches drawn'].
  destruct H as (H & _); simpl; rewrite H.
  apply map_ext_Forall, first_item_key.
Qed.

(** C2: [compute_batches] yields one pair per partition key that occurs in
    the input, and its batches hold the input events, each occurrence once,
    in the batch under the key derived from the event's timestamp. *)
Theorem compute_batches_partition (all_items : list Download) (drawn : nat) :
  let batches := fst (compute_batches unstructure draw all_items drawn) in
  NoDup (map fst batches)
  /\ (forall k, In k (map fst batches)
                <-> exists item, In item all_items
                                 /\ extract_item_date item = k)
  /\ exists groups : list (list Download),
       Permutation (List.concat groups) all_items
       /\ Forall2 (fun batch group =>
                     map (@json Row) (snd batch) = map unstructure group
                     /\ Forall (fun item => extract_item_date item = fst batch)
                               group)
                  batches groups.
Proof.
  intro batches.
  pose proof (compute_batches_keys all_items drawn) as Hkeys.
  fold batches in Hkeys.
  destruct (groupby_sorted_spec extract_item_date all_items)
    as (Hperm & Hgroup & Hnodup).
  pose proof (first_item_key all_items) as Hfirst.
  set (gs := groupby extract_item_date (sorted extract_item_date all_items))
    in *.
  split; [now rewrite Hkeys|split].
  - intro k; rewrite Hkeys, in_map_iff; split.
    + intros (g & Hk & Hin).
      exists (fst (snd g)); split.
      * eapply Permutation_in; [exact Hperm|].
        apply in_concat; exists (group_items g); split.
        -- now apply in_map.
        -- now left.
      * rewrite Forall_forall in Hfirst; rewrite (Hfirst g Hin); exact Hk.
    + intros (item & Hin & Hk).
      apply (Permutation_in _ (Permutation_sym Hperm)) in Hin.
      apply in_concat in Hin as (items & Hitems & Hin).
      apply in_map_iff in Hitems as (g & <- & Hg).
      exists g; split; [|exact Hg].
      rewrite Forall_forall in Hgroup; specialize (Hgroup g Hg).
      rewrite Forall_forall in Hgroup; now rewrite <- (Hgroup item Hin).
  - exists (map (@group_items Download) gs); split; [exact Hperm|].
    unfold batches, compute_batches; fold gs.
    pose proof (yield_batches_spec gs drawn) as H.
    destruct (yield_batches unstructure draw gs drawn) as [bs drawn'].
    destruct H as (H1 & H2 & _); simpl.
    clear Hkeys batches Hperm Hnodup.
    revert Hfirst Hgroup H1.
    induction H2 as [|b g bs gs' Hb H2 IH]; intros Hfirst Hgroup H1; simpl.
    + constructor.
    + inversion Hfirst; inversion Hgroup; subst.
      injection H1 as Hk H1.
      constructor; [|now apply IH].
      split; [exact Hb|].
      eapply Forall_impl; [|eassumption].
      intros item Hitem; simpl in *; congruence.
Qed.

End ComputeBatchesFacts.

(** ** [str(uuid)] is injective *)

Lemma hex_digit_inj (a b : N) :
  (a < 16)%N -> (b < 16)%N -> hex_digit a = hex_digit b -> a = b.
Proof.
  intros Ha Hb.
  assert (Hcases : forall n, (n < 16)%N ->
            In n [0; 1; 2; 3; 4; 5; 6; 7; 8; 9; 10; 11; 12; 13; 14; 15]%N).
  { intros n Hn.
    destruct n as [|p]; [now left|].
    do 4 (destruct p as [p|p|]; try lia; simpl; auto 20). }
  pose proof (Hcases a Ha) as Ia; pose proof (Hcases b Hb) as Ib.
  simpl in Ia, Ib.
  repeat (destruct Ia as [<-|Ia]; [|]); try contradiction;
    repeat (destruct Ib as [<-|Ib]; [|]); try contradiction;
    intro H; try reflexivity; discriminate H.
Qed.

Lemma hex_fixed_length (w : nat) (n : N) : List.length (hex_fixed w n) = w.
Proof.
  revert n; induction w as [|w IH]; intro n; simpl; [reflexivity|].
  rewrite length_app, IH; simpl; lia.
Qed.

Lemma hex_fixed_inj (w : nat) (a b : N) :
  (a < 16 ^ N.of_nat w)%N -> (b < 16 ^ N.of_nat w)%N ->
  hex_fixed w a = hex_fixed w b -> a = b.
Proof.
  revert a b; induction w as [|w IH]; intros a b Ha Hb H.
  - simpl in Ha, Hb; lia.
  - simpl in H; apply app_inj_tail in H as [H1 H2].
    rewrite Nat2N.inj_succ, N.pow_succ_r' in Ha, Hb.
    assert (Hq : (a / 16 = b / 16)%N).
    { apply IH; [| |exact H1]; apply N.Div0.div_lt_upper_bound; lia. }
    assert (Hr : (a mod 16 = b mod 16)%N).
    { apply hex_digit_inj; [| |exact H2]; apply N.mod_lt; lia. }
    rewrite (N.div_mod a 16), (N.div_mod b 16) by lia.
    now rewrite Hq, Hr.
Qed.

Lemma dashed_inj (h k : list ascii) :
  List.length h = 32%nat -> List.length k = 32%nat ->
  dashed h = dashed k -> h = k.
Proof.
  intros Hh Hk H.
  do 32 (destruct h as [|? h]; [discriminate Hh|]).
  destruct h; [|discriminate Hh].
  do 32 (destruct k as [|? k]; [discriminate Hk|]).
  destruct k; [|discriminate Hk].
  cbv [dashed firstn skipn app] in H.
  injection H; intros; subst; reflexivity.
Qed.

Lemma uuid_str_inj (a b : UUID) :
  (a < 2 ^ 128)%N -> (b < 2 ^ 128)%N -> uuid_str a = uuid_str b -> a = b.
Proof.
  intros Ha Hb H; unfold uuid_str in H.
  apply (f_equal list_ascii_of_string) in H.
  rewrite !list_ascii_of_string_of_list_ascii in H.
  apply dashed_inj in H; try apply hex_fixed_length.
  apply (hex_fixed_inj 32); [exact Ha|exact Hb|exact H].
Qed.

(** ** Insertion identifiers *)

Lemma NoDup_map_in (A B : Type) (f : A -> B) (l : list A) :
  (forall x y, In x l -> In y l -> f x = f y -> x = y) ->
  NoDup l -> NoDup (map f l).
Proof.
  intros Hinj Hl; induction Hl as [|x l Hx Hl IH]; simpl; constructor.
  - rewrite in_map_iff; intros (y & E & Hy).
    apply Hinj in E; [subst y; contradiction|now right|now left].
  - apply IH; intros a b Ha Hb; apply Hinj; now right.
Qed.

Section InsertIdFacts.

Variable Row : Type.
Variable unstructure : Download -> Row.
Variable draw : nat -> UUID.

(** A call draws one identifier per input event, in order, starting from
    the state of the generator. *)
Lemma compute_batches_ids (all_items : list Download) (drawn : nat) :
  batch_ids (fst (compute_batches unstructure draw all_items drawn))
  = map (fun n => uuid_str (draw n)) (seq drawn (List.length all_items))
  /\ snd (compute_batches unstructure draw all_items drawn)
     = (drawn + List.length all_items)%nat.
Proof.
  unfold compute_batches.
  destruct (groupby_sorted_spec extract_item_date all_items) as (Hperm & _).
  apply Permutation_length in Hperm.
  pose proof (yield_batches_spec unstructure draw
    (groupby extract_item_date (sorted extract_item_date all_items)) drawn)
    as H.
  destruct (yield_batches unstructure draw _ drawn) as [batches drawn'].
  cbv zeta in H; destruct H as (_ & _ & H3 & H4); simpl.
  now rewrite H3, H4, Hperm.
Qed.

(** C9: when the generator gives distinct UUIDs on the draws made, the
    insertion identifiers of the records of one call of [compute_batches]
    are pairwise distinct, within a batch and across batches, and distinct
    from those of a later call on the same input. *)
Theorem compute_batches_fresh_ids (all_items : list Download)
  (first second : nat) :
  let bound := (second + List.length all_items)%nat in
  (forall m n, (m < bound)%nat -> (n < bound)%nat ->
               draw m = draw n -> m = n) ->
  (forall n, (n < bound)%nat -> (draw n < 2 ^ 128)%N) ->
  (snd (compute_batches unstructure draw all_items first) <= second)%nat ->
  NoDup (batch_ids (fst (compute_batches unstructure draw all_items first))
         ++ batch_ids
              (fst (compute_batches unstructure draw all_items second))).
Proof.
  intros bound Hinj Hrange Hlater.
  destruct (compute_batches_ids all_items first) as [E1 S1].
  destruct (compute_batches_ids all_items second) as [E2 _].
  rewrite S1 in Hlater; rewrite E1, E2, <- map_app.
  apply NoDup_map_in.
  - assert (Hin : forall n,
              In n (seq first (List.length all_items)
                    ++ seq second (List.length all_items)) ->
              (n < bound)%nat).
    { intros n Hn; apply in_app_or in Hn.
      rewrite !in_seq in Hn; unfold bound; lia. }
    intros m n Hm Hn H; apply Hin in Hm, Hn.
    apply uuid_str_inj in H; auto.
  - apply NoDup_app; try apply seq_NoDup.
    intros n; rewrite !in_seq; lia.
Qed.

End InsertIdFacts.

(** C9 on three events, two of them of the same day, with a generator that
    counts: a call from state 0 and a call from state 3. *)
Lemma compute_batches_fresh_ids_witness :
  NoDup
    (batch_ids
       (fst (compute_batches fields N.of_nat
               [mkDownload (mkArrow 2018 4 23 1 0 0 0 0) [];
                mkDownload (mkArrow 2018 1 2 3 0 0 0 0) [];
                mkDownload (mkArrow 2018 4 23 5 0 0 0 0) []] 0))
     ++ batch_ids
          (fst (compute_batches fields N.of_nat
                  [mkDownload (mkArrow 2018 4 23 1 0 0 0 0) [];
                   mkDownload (mkArrow 2018 1 2 3 0 0 0 0) [];
                   mkDownload (mkArrow 2018 4 23 5 0 0 0 0) []] 3))).
Proof.
  apply (@compute_batches_fresh_ids _ fields N.of_nat
           [mkDownload (mkArrow 2018 4 23 1 0 0 0 0) [];
            mkDownload (mkArrow 2018 1 2 3 0 0 0 0) [];
            mkDownload (mkArrow 2018 4 23 5 0 0 0 0) []] 0 3).
  - intros m n _ _ H; now apply Nat2N.inj.
  - simpl; intros n Hn.
    apply N.lt_trans with (m := 6%N); [lia|reflexivity].
  - vm_compute; lia.
Defined.

(** ** [send_batch] *)

Section SendBatchFacts.

Variable Row : Type.
Variable bq : nat -> sink_outcome.
Variable table template_suffix : string.
Variable batch : list (BatchRecord Row).
Variable api_timeout : option seconds.

Let attempt : nat -> list (action Row) * result unit :=
  actually_send_batch_body bq table template_suffix batch api_timeout.

Let insert_all : action Row :=
  InsertAll table batch template_suffix
    (match api_timeout with Some t => t | None => 15 end).

(** What lies between two attempts: the warning of [before_sleep], the
    sleep, and then the next call of the sink. *)
Let backoff (wait : nat -> seconds) (k : nat) : list (action Row) :=
  [Log (BeforeSleep (attempt_exn (bq k)) (wait k)); Sleep (wait k);
   insert_all].

Lemma transient_failure_raises (o : sink_outcome) :
  transient_failure o ->
  fail_after o = Raise (attempt_exn o)
  /\ retry_if_transient (attempt_exn o) = true.
Proof.
  intros [->|[->| ->]]; split; reflexivity.
Qed.

(** While every attempt fails transiently, the loop runs until [stop]
    holds: [more] backoffs, then the exception of the last attempt. *)
Lemma retrying_transient (stop : nat -> bool) (wait : nat -> seconds)
  (more fuel k : nat) :
  (forall j, transient_failure (bq j)) ->
  (forall j, (k <= j < k + more)%nat -> stop j = false) ->
  stop (k + more)%nat = true ->
  (more < fuel)%nat ->
  retrying retry_if_transient stop wait attempt fuel k
  = Some (insert_all :: flat_map (backoff wait) (seq k more),
          Raise (attempt_exn (bq (k + more)%nat))).
Proof.
  intro Hfail; revert fuel k; induction more as [|more IH];
    intros fuel k Hgo Hstop Hfuel.
  - destruct fuel as [|fuel]; [lia|]; simpl.
    destruct (transient_failure_raises (Hfail k)) as [-> ->]; simpl.
    rewrite Nat.add_0_r in Hstop |- *; now rewrite Hstop.
  - destruct fuel as [|fuel]; [lia|]; simpl.
    destruct (transient_failure_raises (Hfail k)) as [-> ->]; simpl.
    rewrite (Hgo k) by lia.
    rewrite (IH fuel (S k)).
    + now rewrite Nat.add_succ_r.
    + intros j Hj; apply Hgo; lia.
    + now rewrite Nat.add_succ_comm.
    + lia.
Qed.

Lemma count_attempts_backoffs (wait : nat -> seconds) (ks : list nat)
  (final : log_record) :
  count_attempts (insert_all :: flat_map (backoff wait) ks ++ [Log final])
  = S (List.length ks).
Proof.
  unfold count_attempts; simpl; f_equal.
  induction ks as [|k ks IH]; simpl; [reflexivity|now rewrite IH].
Qed.

Lemma wait_exponential_bounds (multiplier max : seconds) (k : nat) :
  0 <= max ->
  0 <= wait_exponential multiplier max k
  /\ wait_exponential multiplier max k <= max.
Proof.
  intro Hmax; unfold wait_exponential; split.
  - apply Q.le_max_l.
  - apply Q.max_lub; [exact Hmax|apply Q.le_min_r].
Qed.

(** C4: when every attempt ends in a timeout or a broken stream,
    [send_batch] calls the sink [retry_max_attempts] times (15 by default),
    sleeps [wait_exponential] (multiplier 0.5 and cap 60 by default) after
    each attempt but the last and never before the first, logs the loss and
    returns normally. *)
Theorem send_batch_exhausts_attempts (retry_max_attempts : option Z)
  (retry_max_wait retry_multiplier : option seconds) (fuel : nat) :
  let attempts :=
    Z.to_nat (match retry_max_attempts with Some n => n | None => 15%Z end) in
  let cap := match retry_max_wait with Some w => w | None => 60 end in
  let wait :=
    wait_exponential
      (match retry_multiplier with Some m => m | None => 1 # 2 end) cap in
  (1 <= attempts)%nat ->
  0 <= cap ->
  (forall k, transient_failure (bq k)) ->
  (attempts <= fuel)%nat ->
  exists trace,
    send_batch bq table template_suffix batch retry_max_attempts
      retry_max_wait retry_multiplier api_timeout fuel
    = Some (trace, Return tt)
    /\ trace
       = insert_all
         :: flat_map (backoff wait) (seq 1 (attempts - 1))
         ++ [Log (drop_record (attempt_exn (bq attempts))
                    (List.length batch))]
    /\ count_attempts trace = attempts
    /\ forall k, 0 <= wait k /\ wait k <= cap.
Proof.
  intros attempts cap wait Hpos Hcap Hfail Hfuel.
  eexists; split; [|split; [reflexivity|split]].
  - unfold send_batch; fold attempt.
    rewrite (@retrying_transient _ _ (attempts - 1) fuel 1 Hfail).
    + replace (1 + (attempts - 1))%nat with attempts by lia.
      fold cap; fold wait.
      destruct (Hfail attempts) as [E|[E|E]]; rewrite E; reflexivity.
    + intros j Hj; unfold stop_after_attempt; apply Z.leb_gt.
      unfold attempts in Hj; lia.
    + unfold stop_after_attempt; apply Z.leb_le.
      unfold attempts in *; lia.
    + lia.
  - rewrite count_attempts_backoffs, length_seq; lia.
  - intro k; now apply wait_exponential_bounds.
Qed.

End SendBatchFacts.

(** C4 with every default in force and a sink that never answers in time:
    fifteen attempts, then the batch is dropped. *)
Lemma send_batch_exhausts_attempts_witness :
  exists trace,
    send_batch (Row := unit) (fun _ => Hung) "downloads" "20184113" []
      None None None None 15
    = Some (trace, Return tt)
    /\ count_attempts trace = 15%nat.
Proof.
  destruct (@send_batch_exhausts_attempts unit (fun _ => Hung) "downloads"
              "20184113" [] None None None None 15)
    as (trace & Hrun & _ & Hcount & _).
  - simpl; lia.
  - discriminate.
  - intro k; left; reflexivity.
  - simpl; lia.
  - exists trace; split; [exact Hrun|exact Hcount].
Defined.

Section SendBatchContainment.

Variable Row : Type.
Variable bq : nat -> sink_outcome.
Variable table template_suffix : string.
Variable batch : list (BatchRecord Row).
Variable api_timeout : option seconds.

Let attempt : nat -> list (action Row) * result unit :=
  actually_send_batch_body bq table template_suffix batch api_timeout.

(** The retry loop ends as soon as [stop] holds: with enough fuel it gives
    a result, performs only what the attempts perform besides logging and
    sleeping, and raises only what an attempt raised. *)
Lemma retrying_stops (retry : exn -> bool) (stop : nat -> bool)
  (wait : nat -> seconds) (fuel k : nat) :
  (1 <= fuel)%nat ->
  stop (k + fuel - 1)%nat = true ->
  exists done res,
    retrying retry stop wait attempt fuel k = Some (done, res)
    /\ Forall (fun a => requeues a = false) done
    /\ forall e, res = Raise e -> exists j, fail_after (bq j) = Raise e.
Proof.
  revert k; induction fuel as [|fuel IH]; intros k Hfuel Hstop; [lia|].
  simpl.
  destruct (fail_after (bq k)) as [r|e] eqn:E.
  - exists [InsertAll table batch template_suffix
              (match api_timeout with Some t => t | None => 15 end)],
           (Return r).
    repeat split; [repeat constructor|discriminate].
  - assert (Hraise :
      exists done res,
        Some ([InsertAll table batch template_suffix
                 (match api_timeout with Some t => t | None => 15 end)],
              @Raise unit e) = Some (done, res)
        /\ Forall (fun a : action Row => requeues a = false) done
        /\ forall e', res = Raise e' ->
                      exists j, fail_after (bq j) = Raise e').
    { do 2 eexists; repeat split; [repeat constructor|].
      intros e' He'; injection He' as <-; now exists k. }
    destruct (retry e); simpl; [|exact Hraise].
    destruct (stop k) eqn:Sk; [exact Hraise|].
    destruct fuel as [|fuel'].
    { replace (k + 1 - 1)%nat with k in Hstop by lia; congruence. }
    destruct (IH (S k)) as (later & res & Hrun & Hok & Hexn); [lia| |].
    { replace (S k + S fuel' - 1)%nat with (k + S (S fuel') - 1)%nat by lia.
      exact Hstop. }
    rewrite Hrun; do 2 eexists; repeat split; [|exact Hexn].
    repeat constructor; exact Hok.
Qed.

(** C5, as the code has it: every exception that derives from [Exception]
    and is raised by the sink during the attempts is caught by
    [send_batch], which logs the number of items dropped and returns
    normally, without putting anything back on the queue or starting a new
    task. *)
Theorem send_batch_contains_exceptions (retry_max_attempts : option Z)
  (retry_max_wait retry_multiplier : option seconds) (fuel : nat) :
  let max_attempts :=
    match retry_max_attempts with Some n => n | None => 15%Z end in
  let send :=
    retrying retry_if_transient (stop_after_attempt max_attempts)
      (wait_exponential
         (match retry_multiplier with Some m => m | None => 1 # 2 end)
         (match retry_max_wait with Some w => w | None => 60 end))
      attempt in
  (forall k e, bq k = Failed e -> isinstance_Exception e = true) ->
  (Z.to_nat (Z.max 1 max_attempts) <= fuel)%nat ->
  exists trace,
    send_batch bq table template_suffix batch retry_max_attempts
      retry_max_wait retry_multiplier api_timeout fuel
    = Some (trace, Return tt)
    /\ Forall (fun a => requeues a = false) trace
    /\ forall done e,
         send fuel 1%nat = Some (done, Raise e) ->
         trace = done ++ [Log (drop_record e (List.length batch))].
Proof.
  intros max_attempts send Hexn Hfuel.
  destruct (@retrying_stops retry_if_transient
              (stop_after_attempt max_attempts)
              (wait_exponential
                 (match retry_multiplier with Some m => m | None => 1 # 2 end)
                 (match retry_max_wait with Some w => w | None => 60 end))
              fuel 1) as (done & res & Hrun & Hok & Hfrom).
  - lia.
  - unfold stop_after_attempt; apply Z.leb_le; lia.
  - unfold send_batch; fold attempt; fold max_attempts.
    unfold send; rewrite Hrun.
    destruct res as [r|e].
    + exists done; repeat split; [exact Hok|discriminate].
    + assert (He : isinstance_Exception e = true).
      { destruct (Hfrom e eq_refl) as [j Hj].
        destruct (bq j) as [|e'|] eqn:Ej; simpl in Hj;
          [discriminate|injection Hj as <-; eauto|injection Hj as <-].
        reflexivity. }
      exists (done ++ [Log (drop_record e (List.length batch))]).
      repeat split.
      * destruct e; try reflexivity; discriminate He.
      * apply Forall_app; split; [exact Hok|repeat constructor].
      * intros done' e' H; injection H as <- <-; reflexivity.
Qed.

End SendBatchContainment.

(** C5 does not hold of every exception: a sink call that is cancelled
    raises [trio.Cancelled], which no [except] clause of [send_batch]
    catches, and the exception reaches the caller. *)
Lemma send_batch_cancelled_propagates :
  send_batch (Row := unit) (fun _ => Failed Cancelled) "downloads" "20184113"
    [] None None None None 15
  = Some ([InsertAll "downloads" [] "20184113" 15], Raise Cancelled).
Proof. reflexivity. Qed.

(** C5 on a sink that fails with an unexpected error on the first call. *)
Lemma send_batch_contains_exceptions_witness :
  send_batch (Row := unit) (fun _ => Failed (OtherException 0)) "downloads"
    "20184113" [] None None None None 15
  = Some ([InsertAll "downloads" [] "20184113" 15;
           Log (ErrorSending (OtherException 0) 0)], Return tt).
Proof.
  destruct (@send_batch_contains_exceptions unit
              (fun _ => Failed (OtherException 0)) "downloads" "20184113" []
              None None None None 15) as (trace & Hrun & _ & Hlog).
  - intros k e H; injection H as <-; reflexivity.
  - simpl; lia.
  - rewrite Hrun; f_equal; f_equal.
    apply (Hlog [InsertAll "downloads" [] "20184113" 15]
                (OtherException 0)).
    reflexivity.
Defined.

(** ** [sender] *)

Section SenderFacts.

Variable Row : Type.
Variable unstructure : Download -> Row.
Variable draw : nat -> UUID.

(** The inner loop takes events from the head of the queue, each before the
    deadline, and stops either full, before the deadline, or cancelled at
    the deadline with fewer events than the batch size. *)
Lemma accumulate_spec (batch_size : Z) (deadline : seconds) (q : arrivals) :
  forall (now : seconds) (batch : list Download),
  let '(batch', cancelled_caught, now', q') :=
    accumulate batch_size deadline now batch q in
  (exists taken,
     q = taken ++ q' /\ batch' = batch ++ map snd taken
     /\ Forall (fun a => fst a < deadline) taken)
  /\ (cancelled_caught = false ->
      (batch_size <= Z.of_nat (List.length batch'))%Z
      /\ ((Z.of_nat (List.length batch) < batch_size)%Z ->
          Z.of_nat (List.length batch') = batch_size /\ now' < deadline)
      /\ ((batch_size <= Z.of_nat (List.length batch))%Z ->
          batch' = batch /\ now' = now))
  /\ (cancelled_caught = true ->
      (Z.of_nat (List.length batch') < batch_size)%Z
      /\ deadline <= now'
      /\ forall t event rest,
           q' = (t, event) :: rest -> deadline <= t \/ deadline <= now).
Proof.
  induction q as [|[t event] q IH]; intros now batch; simpl.
  - destruct (Z.ltb_spec (Z.of_nat (List.length batch)) batch_size) as [L|L].
    + split; [|split].
      * exists []; simpl; rewrite ?app_nil_r; repeat split; constructor.
      * discriminate.
      * intros _; repeat split; [exact L|apply Q.le_max_r|discriminate].
    + split; [|split].
      * exists []; simpl; rewrite ?app_nil_r; repeat split; constructor.
      * intros _; repeat split; try lia.
      * discriminate.
  - destruct (Z.ltb_spec (Z.of_nat (List.length batch)) batch_size) as [L|L].
    + destruct (Qlt_le_dec (Qmax now t) deadline) as [D|D].
      * specialize (IH (Qmax now t) (batch ++ [event])).
        destruct (accumulate batch_size deadline (Qmax now t)
                    (batch ++ [event]) q) as [[[batch' caught] now'] q'].
        destruct IH as ((taken & Hq & Hb & Ht) & Hfull & Hcut).
        rewrite length_app in Hfull; simpl in Hfull.
        split; [|split].
        -- exists ((t, event) :: taken); simpl; repeat split.
           ++ now rewrite Hq.
           ++ now rewrite Hb, <- app_assoc.
           ++ constructor; [|exact Ht]; simpl.
              eapply Qle_lt_trans; [apply Q.le_max_r|exact D].
        -- intro Hc; destruct (Hfull Hc) as (H1 & H2 & H3).
           repeat split; try lia; try (intro; lia).
           ++ destruct (Z.ltb_spec
                          (Z.of_nat (List.length batch + 1)) batch_size)
                as [M|M]; [now apply H2|].
              destruct (H3 M) as [-> _]; rewrite length_app; simpl; lia.
           ++ destruct (Z.ltb_spec
                          (Z.of_nat (List.length batch + 1)) batch_size)
                as [M|M]; [now apply H2|].
              destruct (H3 M) as [_ ->]; exact D.
        -- intro Hc; destruct (Hcut Hc) as (H1 & H2 & H3).
           repeat split; [exact H1|exact H2|].
           intros t' event' rest' Hq'.
           destruct (H3 _ _ _ Hq') as [F|F]; [now left|].
           exfalso; exact (Qlt_not_le _ _ D F).
      * split; [|split].
        -- exists []; simpl; rewrite ?app_nil_r; repeat split; constructor.
        -- discriminate.
        -- intros _; repeat split; [exact L|apply Q.le_max_r|].
           intros t' event' rest' Hq'; injection Hq' as <- _ _.
           apply Q.max_le in D; tauto.
    + split; [|split].
      * exists []; simpl; rewrite ?app_nil_r; repeat split; constructor.
      * intros _; repeat split; try lia.
      * discriminate.
Qed.

Lemma compute_batches_nil (drawn : nat) :
  compute_batches unstructure draw [] drawn = ([], drawn).
Proof. reflexivity. Qed.

(** C7: one turn of the dispatch loop takes events from the head of the
    queue until it holds [batch_size] of them (500 by default) or the
    clock reaches the start of the turn plus [batch_timeout] (30 by
    default), whichever comes first; it then starts one send task per batch
    of [compute_batches], and nothing at all when it took no event. *)
Theorem sender_cycle_accumulates (table : string) (batch_size : option Z)
  (batch_timeout : option seconds) (retry_max_attempts : option Z)
  (retry_max_wait retry_multiplier api_timeout : option seconds)
  (now : seconds) (q : arrivals) (drawn : nat) :
  let size := match batch_size with Some n => n | None => 500%Z end in
  let deadline :=
    now + match batch_timeout with Some t => t | None => 30 end in
  (0 <= size)%Z ->
  let '(trace, (now', q', drawn')) :=
    sender_cycle unstructure draw table batch_size batch_timeout
      retry_max_attempts retry_max_wait retry_multiplier api_timeout
      now q drawn in
  exists (taken : arrivals) (cancelled_caught : bool),
    q = taken ++ q'
    /\ Forall (fun a => fst a < deadline) taken
    /\ (if cancelled_caught
        then (Z.of_nat (List.length taken) < size)%Z
             /\ deadline <= now'
             /\ forall t event rest,
                  q' = (t, event) :: rest ->
                  deadline <= t \/ deadline <= now
        else Z.of_nat (List.length taken) = size
             /\ ((0 < size)%Z -> now' < deadline))
    /\ trace
       = match taken with
         | [] => []
         | _ :: _ =>
           [Log (if cancelled_caught
                 then BatchTimedOut (List.length taken)
                 else ItemsAccumulated (List.length taken))]
         end
         ++ map (fun b : string * list (BatchRecord Row) =>
                   StartSoon
                     (mkSendTask table (fst b) (snd b) retry_max_attempts
                        retry_max_wait retry_multiplier api_timeout))
                (fst (compute_batches unstructure draw (map snd taken)
                        drawn))
    /\ (taken = [] -> trace = []).
Proof.
  intros size deadline Hsize; unfold sender_cycle; cbv zeta.
  pose proof (accumulate_spec size deadline q now []) as H.
  unfold size, deadline in H |- *.
  destruct (accumulate _ _ now [] q) as [[[batch caught] now'] q'].
  fold size in H, Hsize |- *; fold deadline in H |- *.
  destruct H as ((taken & Hq & Hb & Ht) & Hfull & Hcut).
  simpl in Hb; subst batch.
  destruct (compute_batches unstructure draw (map snd taken) drawn)
    as [batches drawn'] eqn:E.
  exists taken, caught; rewrite E; rewrite length_map in *.
  split; [exact Hq|split; [exact Ht|split; [|split]]].
  - destruct caught.
    + now apply Hcut.
    + destruct (Hfull eq_refl) as (H1 & H2 & H3); simpl in *.
      destruct (Z.eq_dec size 0) as [Z0|Z0].
      * destruct H3 as [H3 _]; [lia|].
        destruct taken; [|discriminate H3].
        simpl; split; [lia|lia].
      * destruct H2 as [H2 H2']; [lia|]; split; [exact H2|now intros _].
  - destruct taken; simpl; destruct caught; reflexivity.
  - intros ->; cbn [map] in E; rewrite compute_batches_nil in E.
    injection E as <- _; reflexivity.
Qed.

End SenderFacts.

(** C7 on an empty queue with every default in force: the turn ends at the
    timeout with no event and starts nothing. *)
Lemma sender_cycle_accumulates_witness :
  fst (sender_cycle fields N.of_nat "downloads" None None None None None
         None 0 [] 0)
  = [].
Proof.
  pose proof (@sender_cycle_accumulates _ fields N.of_nat "downloads" None
                None None None None None 0 [] 0) as H.
  cbv zeta in H; specialize (H ltac:(lia)).
  destruct (sender_cycle fields N.of_nat "downloads" None None None None
              None None 0 [] 0) as [trace [[now' q'] drawn']].
  destruct H as (taken & caught & Hq & _ & _ & _ & Hnil).
  symmetry in Hq; apply app_eq_nil in Hq as [Htaken _].
  exact (Hnil Htaken).
Defined.

(** ** [handle_connection] *)

Section HandleConnectionFacts.

Variable Row : Type.
Variable draw : nat -> UUID.
Variable syslog_parse : pystr -> result SyslogMessage.
Variable event_parse : pystr -> result Download.
Variable LineReceiver : Type.
Variable new_LineReceiver :
  (bytes -> result (option Download)) -> option Z -> LineReceiver.
Variable recieve_data :
  LineReceiver -> bytes -> list Download * result LineReceiver.
Variable close : LineReceiver -> result unit.

Lemma put_events_loop_actions (peer_id : UUID) (events : list Download) :
  Forall (fun a : action Row => loop_action a = true)
         (put_events peer_id events).
Proof.
  induction events as [|event events IH]; simpl; repeat constructor.
  exact IH.
Qed.

Lemma end_of_stream_loop_actions (peer_id : UUID) (peer : pystr)
  (recv_size : Z) (lr : LineReceiver) :
  Forall (fun a : action Row => loop_action a = true)
         (fst (end_of_stream recieve_data close peer_id peer recv_size lr)).
Proof.
  unfold end_of_stream.
  destruct (recieve_data lr []) as [events [lr'|e]]; simpl.
  - constructor; [reflexivity|].
    apply Forall_app; split; [apply put_events_loop_actions|].
    repeat constructor.
  - constructor; [reflexivity|apply put_events_loop_actions].
Qed.

(** The loop only reads, pushes and logs what it reads and pushes. *)
Lemma receive_loop_loop_actions (peer_id : UUID) (peer : pystr)
  (recv_size : Z) (reads : list (result bytes)) :
  forall lr : LineReceiver,
    Forall (fun a : action Row => loop_action a = true)
           (fst (receive_loop recieve_data close peer_id peer recv_size lr
                   reads)).
Proof.
  induction reads as [|r reads IH]; intro lr; simpl.
  - apply end_of_stream_loop_actions.
  - destruct (receive_or_empty r) as [[|b data]|e].
    + apply end_of_stream_loop_actions.
    + destruct (recieve_data lr (b :: data)) as [events [lr'|e]].
      * specialize (IH lr').
        destruct (receive_loop recieve_data close peer_id peer recv_size
                    lr' reads) as [later res]; simpl in *.
        constructor; [reflexivity|].
        apply Forall_app; split; [apply put_events_loop_actions|exact IH].
      * simpl; constructor; [reflexivity|apply put_events_loop_actions].
    + repeat constructor.
Qed.

(** What [handle_connection] adds to the loop: the record of the
    connection in front, the handling of the two framing errors and the
    close of the stream, with a grace period of 30, at the end and only
    there. *)
Lemma handle_connection_shape (getpeername : option pystr)
  (reads : list (result bytes)) (token : option pystr)
  (max_line_size recv_size : option Z) (drawn : nat) :
  let peer_id := draw drawn in
  let peer :=
    match getpeername with
    | Some peer => peer
    | None => [85; 110; 107; 110; 111; 119; 110]%N
    end in
  let lr :=
    new_LineReceiver
      (fun line => parse_line syslog_parse event_parse line token)
      max_line_size in
  let '(looped, raised) :=
    receive_loop recieve_data close peer_id peer
      (match recv_size with Some n => n | None => 8192%Z end) lr reads in
  let '(trace, res, _) :=
    handle_connection Row draw syslog_parse event_parse new_LineReceiver
      recieve_data close getpeername reads token max_line_size recv_size
      drawn in
  (exists before,
     trace = before ++ [Aclose 30]
     /\ Forall (fun a => is_aclose a = false) before)
  /\ Forall (fun a => loop_action a = true) looped
  /\ match raised with
     | Raise BufferTooLargeError =>
       trace = Log (ConnectionReceived peer_id peer)
               :: looped ++ [Log (BufferTooLarge peer_id); Aclose 30]
       /\ res = Return tt
     | Raise TruncatedLineError =>
       trace = Log (ConnectionReceived peer_id peer)
               :: looped ++ [Log (TruncatedLine peer_id); Aclose 30]
       /\ res = Return tt
     | _ =>
       trace = Log (ConnectionReceived peer_id peer)
               :: looped ++ [Aclose 30]
       /\ res = raised
     end.
Proof.
  intros peer_id peer lr; unfold handle_connection, uuid4.
  cbv beta iota zeta; fold peer_id; fold peer; fold lr.
  pose proof (receive_loop_loop_actions peer_id peer
                (match recv_size with Some n => n | None => 8192%Z end)
                reads lr) as Hloop.
  destruct (receive_loop recieve_data close peer_id peer
              (match recv_size with Some n => n | None => 8192%Z end)
              lr reads) as [looped raised]; simpl in Hloop.
  assert (Hquiet : Forall (fun a : action Row => is_aclose a = false) looped).
  { eapply Forall_impl; [|exact Hloop].
    intros a Ha; destruct a; try reflexivity; discriminate Ha. }
  destruct (framing_handlers peer_id raised) as [handled res] eqn:F.
  assert (Hhandled :
            Forall (fun a : action Row => is_aclose a = false) handled).
  { destruct raised as [[]|e]; [|destruct e]; simpl in F;
      injection F as <- _; repeat constructor. }
  split; [|split; [exact Hloop|]].
  - exists (Log (ConnectionReceived peer_id peer) :: looped ++ handled).
    split; [simpl; now rewrite app_assoc|].
    constructor; [reflexivity|].
    apply Forall_app; split; assumption.
  - destruct raised as [[]|e]; [|destruct e]; simpl in F;
      injection F as <- <-; split; reflexivity.
Qed.

End HandleConnectionFacts.

(** ** The definitions at work *)

(** The decoder accepts the shortest forms of U+00E9, U+20AC and U+1F600
    and rejects an overlong form, a surrogate, a code point above U+10FFFF
    and a truncated sequence. *)
Example utf8_decode_examples :
  utf8_decode [xc3; xa9; xe2; x82; xac; xf0; x9f; x98; x80]
  = Some [233; 8364; 128512]%N
  /\ utf8_decode [xc0; x80] = None
  /\ utf8_decode [xed; xa0; x80] = None
  /\ utf8_decode [xf4; x90; x80; x80] = None
  /\ utf8_decode [xe2; x82] = None.
Proof. repeat split. Qed.

(** Keys across a year boundary: 31 December 2017 and 1 January 2018. *)
Example extract_item_date_year_boundary :
  extract_item_date (mkDownload (mkArrow 2017 12 31 23 0 0 0 0) [])
  = "201712365"%string
  /\ extract_item_date (mkDownload (mkArrow 2018 1 1 0 0 0 0 0) [])
     = "201811"%string.
Proof. split; reflexivity. Qed.

(** Three events of two days make two batches, in key order and in arrival
    order within a batch, with one identifier drawn per record. *)
Example compute_batches_example :
  compute_batches fields N.of_nat
    [mkDownload (mkArrow 2018 4 23 1 0 0 0 0) [([97], [49])]%N;
     mkDownload (mkArrow 2018 1 2 3 0 0 0 0) [([97], [50])]%N;
     mkDownload (mkArrow 2018 4 23 5 0 0 0 0) [([97], [51])]%N] 7
  = ([("201812"%string,
       [mkBatchRecord "00000000-0000-0000-0000-000000000007"
          [([97], [50])]%N]);
      ("20184113"%string,
       [mkBatchRecord "00000000-0000-0000-0000-000000000008"
          [([97], [49])]%N;
        mkBatchRecord "00000000-0000-0000-0000-000000000009"
          [([97], [51])]%N])],
     10%nat).
Proof. reflexivity. Qed.

(** Two lines with the token on one connection: both events are pushed,
    then the stream ends and is closed. *)
Example handle_connection_two_lines :
  let hello := mkDownload (mkArrow 2018 4 23 12 0 0 0 0)
                 [(ascii_text "hello", ascii_text "hello")] in
  let world := mkDownload (mkArrow 2018 4 23 12 0 0 0 0)
                 [(ascii_text "world", ascii_text "world")] in
  sample_connection
    [Return (ascii_bytes "tokhel");
     Return (ascii_bytes "lo" ++ [x0a] ++ ascii_bytes "tokworld" ++ [x0a])]
    (Some (ascii_text "tok")) None
  = ([Log (ConnectionReceived 0%N (ascii_text "Unknown"));
      ReceiveSome 8192%Z;
      ReceiveSome 8192%Z;
      Log (ReceivedEvent 0%N hello); QueuePut hello;
      Log (ReceivedEvent 0%N world); QueuePut world;
      ReceiveSome 8192%Z;
      Log (ConnectionLost 0%N (ascii_text "Unknown"));
      Aclose 30],
     Return tt, 1%nat).
Proof. reflexivity. Qed.

(** A line longer than the maximum with no terminator: the connection is
    dropped and no event reaches the queue. *)
Example handle_connection_oversized_line :
  sample_connection
    [Return (ascii_bytes "tokaaaaaaaa"); Return (ascii_bytes "aaaaaaaaaaa")]
    (Some (ascii_text "tok")) (Some 16%Z)
  = ([Log (ConnectionReceived 0%N (ascii_text "Unknown"));
      ReceiveSome 8192%Z;
      ReceiveSome 8192%Z;
      Log (BufferTooLarge 0%N);
      Aclose 30],
     Return tt, 1%nat).
Proof. reflexivity. Qed.

(** A stream that ends inside a line. *)
Example handle_connection_truncated_line :
  sample_connection [Return (ascii_bytes "tokhel")] (Some (ascii_text "tok"))
    None
  = ([Log (ConnectionReceived 0%N (ascii_text "Unknown"));
      ReceiveSome 8192%Z;
      ReceiveSome 8192%Z;
      Log (ConnectionLost 0%N (ascii_text "Unknown"));
      Log (TruncatedLine 0%N);
      Aclose 30],
     Return tt, 1%nat).
Proof. reflexivity. Qed.

(** A line that is not valid UTF-8: the error of [parse_line] crosses the
    framer and [handle_connection], which closes the stream and raises. *)
Example handle_connection_invalid_utf8 :
  sample_connection [Return [xff; x0a]] None None
  = ([Log (ConnectionReceived 0%N (ascii_text "Unknown"));
      ReceiveSome 8192%Z;
      Aclose 30],
     Raise UnicodeDecodeError, 1%nat).
Proof. reflexivity. Qed.

(** A turn of the dispatch loop with [batch_size = 2]: two events are there
    before the timeout, the third stays in the queue. *)
Example sender_cycle_full_batch :
  let e1 := mkDownload (mkArrow 2018 4 23 1 0 0 0 0) [] in
  let e2 := mkDownload (mkArrow 2018 4 23 2 0 0 0 0) [] in
  let e3 := mkDownload (mkArrow 2018 4 23 3 0 0 0 0) [] in
  sender_cycle fields N.of_nat "downloads" (Some 2%Z) (Some 5) None None
    None None 0 [(1, e1); (2, e2); (3, e3)] 0
  = ([Log (ItemsAccumulated 2);
      StartSoon
        (mkSendTask "downloads" "20184113"
           [mkBatchRecord "00000000-0000-0000-0000-000000000000" [];
            mkBatchRecord "00000000-0000-0000-0000-000000000001" []]
           None None None None)],
     (Qmax (Qmax 0 1) 2, [(3, e3)], 2%nat)).
Proof. reflexivity. Qed.

(** * Further properties *)

(** ** [parse_line] *)

Section ParseLineMore.

Variable syslog_parse : pystr -> result SyslogMessage.
Variable event_parse : pystr -> result Download.

Lemma parse_message_event_iff (text : pystr) (event : Download) :
  parse_message syslog_parse event_parse text = Return (Some event)
  <-> exists msg,
        syslog_parse text = Return msg
        /\ event_parse (message msg) = Return event.
Proof.
  unfold parse_message; split.
  - destruct (syslog_parse text) as [msg|e] eqn:E1.
    + destruct (event_parse (message msg)) as [ev|e] eqn:E2.
      * intro H; injection H as <-; now exists msg.
      * destruct (isinstance_ValueError e); discriminate.
    + destruct (isinstance_ValueError e); discriminate.
  - intros (msg & -> & ->); reflexivity.
Qed.

(** X1: [parse_line] returns an event exactly when the line decodes, the
    text starts with the token if one is configured, the text after the
    token parses as an envelope and the message of the envelope parses as
    an event; the event returned is that event. *)
Theorem parse_line_event_iff (line : bytes) (token : option pystr)
  (event : Download) :
  parse_line syslog_parse event_parse line token = Return (Some event)
  <-> exists text rest msg,
        utf8_decode line = Some text
        /\ text = match token with Some t => t ++ rest | None => rest end
        /\ syslog_parse rest = Return msg
        /\ event_parse (message msg) = Return event.
Proof.
  unfold parse_line; split.
  - destruct (utf8_decode line) as [text|]; [|discriminate].
    destruct token as [t|].
    + destruct (startswith text t) eqn:S; simpl; [|discriminate].
      intro H; apply parse_message_event_iff in H as (msg & H1 & H2).
      exists text, (skipn (List.length t) text), msg.
      repeat split; auto using startswith_split.
    + intro H; apply parse_message_event_iff in H as (msg & H1 & H2).
      now exists text, text, msg.
  - intros (text & rest & msg & -> & -> & H1 & H2).
    destruct token as [t|].
    + rewrite startswith_app, skipn_token_app; simpl.
      apply parse_message_event_iff; now exists msg.
    + apply parse_message_event_iff; now exists msg.
Qed.

(** X3: a line that carries the token in front of a text, read with the
    token configured, gives what the line of the text alone gives with no
    token configured. *)
Theorem parse_line_strips_token (line line' : bytes) (token rest : pystr) :
  utf8_decode line = Some (token ++ rest) ->
  utf8_decode line' = Some rest ->
  parse_line syslog_parse event_parse line (Some token)
  = parse_line syslog_parse event_parse line' None.
Proof.
  intros H H'; unfold parse_line; rewrite H, H'.
  now rewrite startswith_app, skipn_token_app.
Qed.

End ParseLineMore.

(** X2 on the sample parsers, of which one fails with [ValueError] and the
    other never fails. *)
Lemma parse_line_decoded_returns_witness :
  exists r,
    parse_line sample_syslog_parse sample_event_parse (ascii_bytes "hello")
      (Some (ascii_text "tok"))
    = Return r.
Proof.
  apply (@parse_line_decoded_returns sample_syslog_parse sample_event_parse
           (ascii_bytes "hello") (Some (ascii_text "tok"))
           (ascii_text "hello") eq_refl).
  - intros [|c s] e H; simpl in H; [|discriminate].
    injection H as <-; reflexivity.
  - intros s e H; discriminate H.
Defined.

(** X3 on the lines ["tokenhello"] and ["hello"]. *)
Lemma parse_line_strips_token_witness :
  parse_line sample_syslog_parse sample_event_parse
    (ascii_bytes "tokenhello") (Some (ascii_text "token"))
  = parse_line sample_syslog_parse sample_event_parse (ascii_bytes "hello")
      None.
Proof.
  apply (@parse_line_strips_token sample_syslog_parse sample_event_parse
           (ascii_bytes "tokenhello") (ascii_bytes "hello")
           (ascii_text "token") (ascii_text "hello")); reflexivity.
Defined.

(** ** [compute_batches]: order and content of the batches *)

Section GroupingOrder.

Variable A : Type.
Variable key : A -> string.

(** The items of a list that have a given key, in the order of the list. *)
Let with_key (k : string) (l : list A) : list A :=
  filter (fun x => String.eqb (key x) k) l.

Lemma insert_sorted_with_key (k : string) (x : A) (l : list A) :
  with_key k (insert_sorted key x l) = with_key k (x :: l).
Proof.
  induction l as [|y l IH]; [reflexivity|]; simpl.
  destruct (String.ltb (key y) (key x)) eqn:L; [|reflexivity].
  unfold with_key in *; simpl in *; rewrite IH.
  destruct (String.eqb_spec (key x) k) as [Ex|Ex]; [|reflexivity].
  destruct (String.eqb_spec (key y) k) as [Ey|Ey]; [|reflexivity].
  assert (Hyx : key y = key x) by congruence.
  rewrite Hyx, ltb_irrefl in L; discriminate.
Qed.

(** [sorted] is stable: it keeps the order of the items of equal key. *)
Lemma sorted_with_key (k : string) (l : list A) :
  with_key k (sorted key l) = with_key k l.
Proof.
  induction l as [|x l IH]; [reflexivity|]; simpl.
  rewrite insert_sorted_with_key; unfold with_key in *; simpl.
  now rewrite IH.
Qed.

Lemma with_key_none (k : string) (l : list A) :
  Forall (fun x => key x <> k) l -> with_key k l = [].
Proof.
  induction 1 as [|x l Hx Hl IH]; [reflexivity|].
  unfold with_key in *; simpl.
  destruct (String.eqb_spec (key x) k); [contradiction|exact IH].
Qed.

Lemma ltb_neq (a b : string) : String.ltb a b = true -> a <> b.
Proof. intros H ->; rewrite ltb_irrefl in H; discriminate. Qed.

(** On a list sorted by key, a group holds all the items of its key. *)
Lemma groupby_from_with_key (l : list A) (k : string) :
  StronglySorted (key_le key) l ->
  Forall (fun x => String.ltb (key x) k = false) l ->
  let (run, later) := groupby_from key k l in
  run = with_key k l
  /\ Forall (fun g => group_items g = with_key (fst g) l) later.
Proof.
  intro Hs; revert k; induction Hs as [|x l Hs IH Hx]; intros k Hk.
  - simpl; split; [reflexivity|constructor].
  - inversion Hk as [|? ? Hkx Hkl]; subst.
    pose proof (@groupby_from_increasing A key (x :: l) k
                  (SSorted_cons x Hs Hx) Hk) as Hinc.
    simpl in Hinc |- *.
    destruct (String.eqb_spec (key x) k) as [E|E].
    + specialize (IH k Hkl).
      destruct (groupby_from key k l) as [run later].
      destruct IH as [H1 H2]; destruct Hinc as [I1 _].
      unfold with_key in *; simpl.
      destruct (String.eqb_spec (key x) k); [|contradiction].
      split; [now rewrite H1|].
      rewrite Forall_forall in H2, I1 |- *; intros g Hg.
      rewrite (H2 g Hg); simpl.
      destruct (String.eqb_spec (key x) (fst g)) as [F|F]; [|reflexivity].
      apply I1, ltb_neq in Hg; congruence.
    + specialize (IH (key x) Hx).
      destruct (groupby_from key (key x) l) as [run later].
      destruct IH as [H1 H2]; destruct Hinc as [I1 I2].
      assert (Hlt : String.ltb k (key x) = true).
      { destruct (String.ltb k (key x)) eqn:F; [reflexivity|].
        exfalso; apply E; now apply ltb_connex. }
      split.
      * unfold with_key; simpl.
        destruct (String.eqb_spec (key x) k); [contradiction|].
        symmetry; apply with_key_none.
        eapply Forall_impl; [|exact Hx].
        intros y Hy Ey; unfold key_le in Hy; rewrite Ey in Hy; congruence.
      * apply StronglySorted_inv in I2 as [_ I3].
        constructor.
        -- unfold group_items, with_key; simpl.
           rewrite String.eqb_refl; now rewrite H1.
        -- rewrite Forall_forall in H2, I3 |- *; intros g Hg.
           rewrite (H2 g Hg); unfold with_key; simpl.
           destruct (String.eqb_spec (key x) (fst g)) as [F|F];
             [|reflexivity].
           apply I3, ltb_neq in Hg; simpl in Hg; contradiction.
Qed.

(** [groupby] after [sorted]: the groups come in increasing key order, and
    each holds the items of its key in the order of the list. *)
Lemma groupby_sorted_with_key (l : list A) :
  let groups := groupby key (sorted key l) in
  StronglySorted (@group_lt A) groups
  /\ Forall (fun g => group_items g = with_key (fst g) l) groups.
Proof.
  pose proof (sorted_ordered key l) as Hs.
  assert (Hst : forall k, with_key k (sorted key l) = with_key k l)
    by (intro k; apply sorted_with_key).
  unfold groupby; destruct (sorted key l) as [|x s]; simpl.
  - split; constructor.
  - inversion Hs as [|? ? Hs' Hx]; subst.
    pose proof (@groupby_from_increasing A key s (key x) Hs' Hx) as I.
    pose proof (@groupby_from_with_key s (key x) Hs' Hx) as W.
    destruct (groupby_from key (key x) s) as [run later].
    destruct I as [I1 I2]; destruct W as [W1 W2].
    split; [now constructor|].
    constructor.
    + rewrite <- Hst; unfold group_items, with_key; simpl.
      rewrite String.eqb_refl; now rewrite W1.
    + rewrite Forall_forall in W2, I1 |- *; intros g Hg.
      rewrite <- Hst, (W2 g Hg); unfold with_key; simpl.
      destruct (String.eqb_spec (key x) (fst g)) as [F|F]; [|reflexivity].
      apply I1, ltb_neq in Hg; contradiction.
Qed.

End GroupingOrder.

Section ComputeBatchesOrder.

Variable Row : Type.
Variable unstructure : Download -> Row.
Variable draw : nat -> UUID.

Lemma group_lt_keys (A : Type) (groups : list (string * (A * list A))) :
  StronglySorted (@group_lt A) groups ->
  StronglySorted (fun k k' => String.ltb k k' = true) (map fst groups).
Proof.
  induction 1 as [|g gs Hs IH Hg]; simpl; constructor; [exact IH|].
  rewrite Forall_map; exact Hg.
Qed.

(** X4: the pairs of [compute_batches] come in strictly increasing order of
    their keys, compared as strings. *)
Theorem compute_batches_keys_increasing (all_items : list Download)
  (drawn : nat) :
  StronglySorted (fun k k' => String.ltb k k' = true)
    (map fst (fst (compute_batches unstructure draw all_items drawn))).
Proof.
  rewrite compute_batches_keys.
  apply group_lt_keys.
  now destruct (groupby_sorted_with_key extract_item_date all_items).
Qed.

(** X5: the batch yielded under a key holds the rows of exactly the input
    events that have this key, in the order in which they stand in the
    input. *)
Theorem compute_batches_batch_content (all_items : list Download)
  (drawn : nat) :
  Forall (fun batch =>
            map (@json Row) (snd batch)
            = map unstructure
                (filter (fun item =>
                           String.eqb (extract_item_date item) (fst batch))
                        all_items))
         (fst (compute_batches unstructure draw all_items drawn)).
Proof.
  pose proof (compute_batches_keys unstructure draw all_items drawn) as Hkeys.
  destruct (groupby_sorted_with_key extract_item_date all_items)
    as [_ Hcontent].
  unfold compute_batches in *.
  pose proof (yield_batches_spec unstructure draw
    (groupby extract_item_date (sorted extract_item_date all_items)) drawn)
    as H.
  destruct (yield_batches unstructure draw _ drawn) as [batches drawn'].
  cbv zeta in H; destruct H as (_ & H2 & _); cbn [fst] in Hkeys |- *.
  revert Hkeys Hcontent.
  induction H2 as [|b g bs gs Hb H2 IH]; intros Hkeys Hcontent;
    [constructor|].
  simpl in Hkeys; injection Hkeys as Hk Hkeys.
  inversion Hcontent as [|? ? Hg Hgs]; subst.
  constructor; [|now apply IH].
  now rewrite Hb, Hg, Hk.
Qed.

(** X6: a call of [compute_batches] draws one identifier per input event:
    the identifiers of its records, read batch after batch, are the
    strings of the next draws of the generator in order, and the generator
    is left advanced by the number of events. *)
Theorem compute_batches_draws (all_items : list Download) (drawn : nat) :
  batch_ids (fst (compute_batches unstructure draw all_items drawn))
  = map (fun n => uuid_str (draw n)) (seq drawn (List.length all_items))
  /\ snd (compute_batches unstructure draw all_items drawn)
     = (drawn + List.length all_items)%nat.
Proof.
  unfold compute_batches.
  destruct (groupby_sorted_spec extract_item_date all_items) as (Hperm & _).
  apply Permutation_length in Hperm.
  pose proof (yield_batches_spec unstructure draw
    (groupby extract_item_date (sorted extract_item_date all_items)) drawn)
    as H.
  destruct (yield_batches unstructure draw _ drawn) as [batches drawn'].
  cbv zeta in H; destruct H as (_ & _ & Hids & Hstate); simpl.
  now rewrite Hids, Hstate, Hperm.
Qed.

(** X7: [compute_batches] never yields an empty batch, and it yields no
    batch at all exactly when the input is empty. *)
Theorem compute_batches_no_empty_batch (all_items : list Download)
  (drawn : nat) :
  Forall (fun batch => snd batch <> [])
         (fst (compute_batches unstructure draw all_items drawn))
  /\ (fst (compute_batches unstructure draw all_items drawn) = []
      <-> all_items = []).
Proof.
  split.
  - unfold compute_batches.
    pose proof (yield_batches_spec unstructure draw
      (groupby extract_item_date (sorted extract_item_date all_items)) drawn)
      as H.
    destruct (yield_batches unstructure draw _ drawn) as [batches drawn'].
    cbv zeta in H; destruct H as (_ & H2 & _); simpl.
    induction H2 as [|b g bs gs Hb H2 IH]; constructor; [|exact IH].
    intro E; rewrite E in Hb; discriminate Hb.
  - destruct (compute_batches_ids unstructure draw all_items drawn)
      as [Hids _].
    split.
    + intro E; rewrite E in Hids; simpl in Hids.
      destruct all_items; [reflexivity|discriminate Hids].
    + intros ->; reflexivity.
Qed.

End ComputeBatchesOrder.

(** ** [handle_connection]: the end of the stream *)

Section EndOfStreamFacts.

Variable Row : Type.
Variable draw : nat -> UUID.
Variable syslog_parse : pystr -> result SyslogMessage.
Variable event_parse : pystr -> result Download.
Variable LineReceiver : Type.
Variable new_LineReceiver :
  (bytes -> result (option Download)) -> option Z -> LineReceiver.
Variable recieve_data :
  LineReceiver -> bytes -> list Download * result LineReceiver.
Variable close : LineReceiver -> result unit.

Lemma receive_loop_end_of_stream (peer_id : UUID) (peer : pystr)
  (recv_size : Z) (before after after' : list (result bytes)) :
  forall lr : LineReceiver,
    receive_loop (Row := Row) recieve_data close peer_id peer recv_size lr
      (before ++ Raise BrokenStreamError :: after)
    = receive_loop recieve_data close peer_id peer recv_size lr
        (before ++ Return [] :: after').
Proof.
  induction before as [|r before IH]; intro lr; simpl; [reflexivity|].
  destruct (receive_or_empty r) as [[|b data]|e]; try reflexivity.
  destruct (recieve_data lr (b :: data)) as [events [lr'|e]];
    [|reflexivity].
  now rewrite IH.
Qed.

(** X8: a read that fails with [BrokenStreamError] is handled as the end of
    the stream, exactly like an empty read, and what the stream would give
    after the end is never read. *)
Theorem handle_connection_broken_stream_is_end (getpeername : option pystr)
  (before after after' : list (result bytes)) (token : option pystr)
  (max_line_size recv_size : option Z) (drawn : nat) :
  handle_connection Row draw syslog_parse event_parse new_LineReceiver
    recieve_data close getpeername
    (before ++ Raise BrokenStreamError :: after) token max_line_size
    recv_size drawn
  = handle_connection Row draw syslog_parse event_parse new_LineReceiver
      recieve_data close getpeername (before ++ Return [] :: after') token
      max_line_size recv_size drawn.
Proof.
  unfold handle_connection, uuid4; cbv beta iota zeta.
  now rewrite (receive_loop_end_of_stream _ _ _ before after after').
Qed.

End EndOfStreamFacts.

(** ** [send_batch]: how the attempts end *)

Section SendBatchOutcomes.

Variable Row : Type.
Variable bq : nat -> sink_outcome.
Variable table template_suffix : string.
Variable batch : list (BatchRecord Row).
Variable api_timeout : option seconds.

Let attempt : nat -> list (action Row) * result unit :=
  actually_send_batch_body bq table template_suffix batch api_timeout.

Let insert_all : action Row :=
  InsertAll table batch template_suffix
    (match api_timeout with Some t => t | None => 15 end).

Let backoff (wait : nat -> seconds) (k : nat) : list (action Row) :=
  [Log (BeforeSleep (attempt_exn (bq k)) (wait k)); Sleep (wait k);
   insert_all].

(** The loop retries the transient failures and ends with the first
    attempt that returns or raises something else. *)
Lemma retrying_until (stop : nat -> bool) (wait : nat -> seconds)
  (more fuel k : nat) :
  (forall j, (k <= j < k + more)%nat ->
             transient_failure (bq j) /\ stop j = false) ->
  (forall e, fail_after (bq (k + more)%nat) = Raise e ->
             retry_if_transient e = false) ->
  (more < fuel)%nat ->
  retrying retry_if_transient stop wait attempt fuel k
  = Some (insert_all :: flat_map (backoff wait) (seq k more),
          fail_after (bq (k + more)%nat)).
Proof.
  revert fuel k; induction more as [|more IH];
    intros fuel k Hgo Hend Hfuel; (destruct fuel as [|fuel]; [lia|]); simpl.
  - rewrite Nat.add_0_r in *.
    destruct (fail_after (bq k)) as [r|e] eqn:E; [reflexivity|].
    now rewrite (Hend e eq_refl).
  - destruct (Hgo k) as [Hk Sk]; [lia|].
    destruct (transient_failure_raises Hk) as [-> ->]; simpl.
    rewrite Sk, (IH fuel (S k)).
    + now rewrite Nat.add_succ_r.
    + intros j Hj; apply Hgo; lia.
    + now rewrite Nat.add_succ_comm.
    + lia.
Qed.

Lemma count_attempts_retries (wait : nat -> seconds) (ks : list nat) :
  count_attempts (insert_all :: flat_map (backoff wait) ks)
  = S (List.length ks).
Proof.
  unfold count_attempts; simpl; f_equal.
  induction ks as [|j ks IH]; simpl; [reflexivity|now rewrite IH].
Qed.

Lemma stop_after_attempt_before (max_attempts : Z) (k j : nat) :
  (Z.of_nat k <= Z.max 1 max_attempts)%Z -> (1 <= j < k)%nat ->
  stop_after_attempt max_attempts j = false.
Proof.
  intros Hk Hj; unfold stop_after_attempt; apply Z.leb_gt; lia.
Qed.

(** X9: when the sink fails with timeouts or broken streams on the first
    [k - 1] attempts and accepts the batch on attempt [k], with [k] within
    [retry_max_attempts], [send_batch] calls the sink exactly [k] times,
    sleeps between the attempts only, logs no loss and returns. *)
Theorem send_batch_delivers_after_retries (retry_max_attempts : option Z)
  (retry_max_wait retry_multiplier : option seconds) (k fuel : nat) :
  let max_attempts :=
    match retry_max_attempts with Some n => n | None => 15%Z end in
  let wait :=
    wait_exponential
      (match retry_multiplier with Some m => m | None => 1 # 2 end)
      (match retry_max_wait with Some w => w | None => 60 end) in
  (1 <= k)%nat ->
  (Z.of_nat k <= Z.max 1 max_attempts)%Z ->
  (forall j, (1 <= j < k)%nat -> transient_failure (bq j)) ->
  bq k = Inserted ->
  (k <= fuel)%nat ->
  send_batch bq table template_suffix batch retry_max_attempts
    retry_max_wait retry_multiplier api_timeout fuel
  = Some (insert_all :: flat_map (backoff wait) (seq 1 (k - 1)), Return tt)
  /\ count_attempts (insert_all :: flat_map (backoff wait) (seq 1 (k - 1)))
     = k.
Proof.
  intros max_attempts wait Hk Hmax Hfail Hok Hfuel; split.
  - unfold send_batch; fold attempt; fold max_attempts.
    rewrite (@retrying_until _ _ (k - 1) fuel 1).
    + replace (1 + (k - 1))%nat with k by lia; rewrite Hok; reflexivity.
    + intros j Hj; split; [apply Hfail; lia|].
      apply (stop_after_attempt_before max_attempts (k := k)); [exact Hmax|lia].
    + replace (1 + (k - 1))%nat with k by lia; rewrite Hok; discriminate.
    + lia.
  - rewrite count_attempts_retries, length_seq; lia.
Qed.

(** X10: an exception of the sink that is neither a timeout nor a broken
    stream is not retried.  Raised on attempt [k] after [k - 1] transient
    failures, it ends the attempts: when it derives from [Exception],
    [send_batch] logs it with the number of items and returns; otherwise it
    leaves [send_batch] and nothing is logged. *)
Theorem send_batch_unexpected_error (retry_max_attempts : option Z)
  (retry_max_wait retry_multiplier : option seconds) (k fuel : nat)
  (e : exn) :
  let max_attempts :=
    match retry_max_attempts with Some n => n | None => 15%Z end in
  let wait :=
    wait_exponential
      (match retry_multiplier with Some m => m | None => 1 # 2 end)
      (match retry_max_wait with Some w => w | None => 60 end) in
  let attempts := insert_all :: flat_map (backoff wait) (seq 1 (k - 1)) in
  (1 <= k)%nat ->
  (Z.of_nat k <= Z.max 1 max_attempts)%Z ->
  (forall j, (1 <= j < k)%nat -> transient_failure (bq j)) ->
  bq k = Failed e ->
  retry_if_transient e = false ->
  (k <= fuel)%nat ->
  send_batch bq table template_suffix batch retry_max_attempts
    retry_max_wait retry_multiplier api_timeout fuel
  = if isinstance_Exception e
    then Some (attempts ++ [Log (ErrorSending e (List.length batch))],
               Return tt)
    else Some (attempts, Raise e).
Proof.
  intros max_attempts wait attempts Hk Hmax Hfail Hbad Hretry Hfuel.
  unfold send_batch; fold attempt; fold max_attempts.
  rewrite (@retrying_until _ _ (k - 1) fuel 1).
  - replace (1 + (k - 1))%nat with k by lia; rewrite Hbad; simpl.
    destruct e; try reflexivity; discriminate Hretry.
  - intros j Hj; split; [apply Hfail; lia|].
    apply (stop_after_attempt_before max_attempts (k := k)); [exact Hmax|lia].
  - replace (1 + (k - 1))%nat with k by lia; rewrite Hbad; simpl.
    intros e' He'; injection He' as <-; exact Hretry.
  - lia.
Qed.

(** [actually_send_batch] as decorated has no stop condition. *)
Lemma retrying_never_stops (fuel k : nat) :
  (forall j, transient_failure (bq j)) ->
  retrying retry_if_transient stop_never wait_none attempt fuel k = None.
Proof.
  intro Hfail; revert k; induction fuel as [|fuel IH]; intro k; simpl;
    [reflexivity|].
  destruct (transient_failure_raises (Hfail k)) as [-> ->]; simpl.
  now rewrite IH.
Qed.

(** X11: called as it is decorated, without the stop condition that
    [send_batch] adds, [actually_send_batch] never gives up on a sink whose
    every call ends in a timeout or a broken stream: no number of attempts
    brings a result. *)
Theorem actually_send_batch_never_gives_up (fuel : nat) :
  (forall k, transient_failure (bq k)) ->
  actually_send_batch bq table template_suffix batch api_timeout fuel = None.
Proof.
  intro Hfail; unfold actually_send_batch; now apply retrying_never_stops.
Qed.

End SendBatchOutcomes.

Section SendBatchBudget.

Variable Row : Type.
Variable bq : nat -> sink_outcome.
Variable table template_suffix : string.
Variable batch : list (BatchRecord Row).
Variable api_timeout : option seconds.

Let attempt : nat -> list (action Row) * result unit :=
  actually_send_batch_body bq table template_suffix batch api_timeout.

Let timeout : seconds := match api_timeout with Some t => t | None => 15 end.

Lemma count_attempts_app (l l' : list (action Row)) :
  count_attempts (l ++ l') = (count_attempts l + count_attempts l')%nat.
Proof. unfold count_attempts; now rewrite filter_app, length_app. Qed.

Lemma time_budget_app_log (l : list (action Row)) (r : log_record) :
  time_budget (l ++ [Log r]) = time_budget l.
Proof. unfold time_budget; now rewrite fold_right_app. Qed.

(** The loop under [stop_after_attempt]: at least one attempt, no more
    attempts than the stop condition leaves, and a time budget of one
    timeout per attempt and one wait between two attempts. *)
Lemma retrying_bounded (retry : exn -> bool) (max_attempts : Z)
  (wait : nat -> seconds) (cap : seconds) (fuel : nat) :
  0 <= timeout -> (forall j, wait j <= cap) ->
  forall (k : nat) (trace : list (action Row)) (res : result unit),
    retrying retry (stop_after_attempt max_attempts) wait attempt fuel k
    = Some (trace, res) ->
    (1 <= count_attempts trace)%nat
    /\ (Z.of_nat (count_attempts trace)
        <= Z.max 1 (max_attempts - Z.of_nat k + 1))%Z
    /\ time_budget trace
       <= inject_Z (Z.of_nat (count_attempts trace)) * timeout
          + (inject_Z (Z.of_nat (count_attempts trace)) - 1) * cap.
Proof.
  intros Htimeout Hwait; induction fuel as [|fuel IH];
    intros k trace res H; [discriminate|].
  simpl in H; fold timeout in H.
  assert (Hone :
    (1 <= count_attempts [InsertAll table batch template_suffix timeout])%nat
    /\ (Z.of_nat
          (count_attempts [InsertAll table batch template_suffix timeout])
        <= Z.max 1 (max_attempts - Z.of_nat k + 1))%Z
    /\ time_budget [InsertAll table batch template_suffix timeout]
       <= inject_Z
            (Z.of_nat
               (count_attempts
                  [InsertAll table batch template_suffix timeout]))
          * timeout
          + (inject_Z
               (Z.of_nat
                  (count_attempts
                     [InsertAll table batch template_suffix timeout])) - 1)
            * cap).
  { unfold count_attempts, time_budget; simpl.
    repeat split; [lia|lia|].
    change (inject_Z 1) with 1; lra. }
  destruct (fail_after (bq k)) as [r|e].
  - injection H as <- <-; exact Hone.
  - destruct (retry e); simpl in H; [|injection H as <- <-; exact Hone].
    destruct (stop_after_attempt max_attempts k) eqn:Sk;
      [injection H as <- <-; exact Hone|].
    destruct (retrying retry (stop_after_attempt max_attempts) wait attempt
                fuel (S k)) as [[later res']|] eqn:R; [|discriminate].
    injection H as <- <-.
    destruct (IH _ _ _ R) as (H1 & H2 & H3).
    unfold stop_after_attempt in Sk; apply Z.leb_gt in Sk.
    assert (Ec : count_attempts
                   (InsertAll table batch template_suffix timeout
                    :: Log (BeforeSleep e (wait k)) :: Sleep (wait k)
                    :: later)
                 = S (count_attempts later)) by reflexivity.
    assert (Eb : time_budget
                   (InsertAll table batch template_suffix timeout
                    :: Log (BeforeSleep e (wait k)) :: Sleep (wait k)
                    :: later)
                 = timeout + (wait k + time_budget later)) by reflexivity.
    rewrite Ec, Eb.
    repeat split; [lia|lia|].
    rewrite Nat2Z.inj_succ, <- Z.add_1_r, inject_Z_plus.
    change (inject_Z 1) with 1.
    specialize (Hwait k).
    set (c := inject_Z (Z.of_nat (count_attempts later))) in *.
    nra.
Qed.

(** X12: whatever the sink does, a call of [send_batch] that ends has
    called the sink at least once and at most [retry_max_attempts] times
    (once, when that number is below one), and its attempts and sleeps
    together fit in that many timeouts plus one [retry_max_wait] between
    two attempts. *)
Theorem send_batch_time_boxed (retry_max_attempts : option Z)
  (retry_max_wait retry_multiplier : option seconds) (fuel : nat)
  (trace : list (action Row)) (res : result unit) :
  let max_attempts :=
    Z.max 1 (match retry_max_attempts with Some n => n | None => 15%Z end) in
  let cap := match retry_max_wait with Some w => w | None => 60 end in
  0 <= timeout -> 0 <= cap ->
  send_batch bq table template_suffix batch retry_max_attempts
    retry_max_wait retry_multiplier api_timeout fuel
  = Some (trace, res) ->
  (1 <= count_attempts trace <= Z.to_nat max_attempts)%nat
  /\ time_budget trace
     <= inject_Z max_attempts * timeout + (inject_Z max_attempts - 1) * cap.
Proof.
  intros max_attempts cap Htimeout Hcap H.
  unfold send_batch in H; fold attempt in H.
  destruct (retrying retry_if_transient _ _ attempt fuel 1)
    as [[done res']|] eqn:R; [|discriminate].
  apply (@retrying_bounded _ _ _ cap fuel Htimeout) in R;
    [|intro j; now apply wait_exponential_bounds].
  destruct R as (H1 & H2 & H3).
  assert (Hdone :
    (1 <= count_attempts done <= Z.to_nat max_attempts)%nat
    /\ time_budget done
       <= inject_Z max_attempts * timeout
          + (inject_Z max_attempts - 1) * cap).
  { split; [unfold max_attempts; lia|].
    assert (Hc : inject_Z (Z.of_nat (count_attempts done))
                 <= inject_Z max_attempts)
      by (rewrite <- Zle_Qle; unfold max_attempts; lia).
    set (c := inject_Z (Z.of_nat (count_attempts done))) in *.
    set (m := inject_Z max_attempts) in *.
    nra. }
  assert (Hlogged : forall r,
    (1 <= count_attempts (done ++ [Log r]) <= Z.to_nat max_attempts)%nat
    /\ time_budget (done ++ [Log r])
       <= inject_Z max_attempts * timeout
          + (inject_Z max_attempts - 1) * cap).
  { intro r.
    assert (Ec : count_attempts (done ++ [Log r]) = count_attempts done)
      by (rewrite count_attempts_app; unfold count_attempts; simpl; lia).
    rewrite Ec, time_budget_app_log; exact Hdone. }
  destruct res' as [r|e].
  - injection H as <- _; exact Hdone.
  - destruct e; simpl in H; injection H as <- _;
      first [exact Hdone|apply Hlogged].
Qed.

End SendBatchBudget.

(** X9 on a sink that fails twice and then accepts the batch. *)
Lemma send_batch_delivers_after_retries_witness :
  send_batch (Row := unit)
    (fun k => if (k <? 3)%nat then Failed BrokenStreamError else Inserted)
    "downloads" "20184113" [] None None None None 15
  = Some ([InsertAll "downloads" [] "20184113" 15;
           Log (BeforeSleep BrokenStreamError
                  (wait_exponential (1 # 2) 60 1));
           Sleep (wait_exponential (1 # 2) 60 1);
           InsertAll "downloads" [] "20184113" 15;
           Log (BeforeSleep BrokenStreamError
                  (wait_exponential (1 # 2) 60 2));
           Sleep (wait_exponential (1 # 2) 60 2);
           InsertAll "downloads" [] "20184113" 15],
          Return tt).
Proof.
  apply (@send_batch_delivers_after_retries unit
           (fun k => if (k <? 3)%nat then Failed BrokenStreamError
                     else Inserted)
           "downloads" "20184113" [] None None None None 3 15).
  - lia.
  - simpl; lia.
  - intros j Hj; right; right.
    destruct j as [|[|[|j]]]; try lia; reflexivity.
  - reflexivity.
  - lia.
Defined.

(** X10 on a sink that fails with an unexpected error on its second
    call. *)
Lemma send_batch_unexpected_error_witness :
  send_batch (Row := unit)
    (fun k => if (k <? 2)%nat then Hung else Failed (OtherException 7))
    "downloads" "20184113" [] None None None None 15
  = Some ([InsertAll "downloads" [] "20184113" 15;
           Log (BeforeSleep TooSlowError (wait_exponential (1 # 2) 60 1));
           Sleep (wait_exponential (1 # 2) 60 1);
           InsertAll "downloads" [] "20184113" 15;
           Log (ErrorSending (OtherException 7) 0)],
          Return tt).
Proof.
  apply (@send_batch_unexpected_error unit
           (fun k => if (k <? 2)%nat then Hung else Failed (OtherException 7))
           "downloads" "20184113" [] None None None None 2 15
           (OtherException 7)).
  - lia.
  - simpl; lia.
  - intros j Hj; left.
    destruct j as [|[|j]]; try lia; reflexivity.
  - reflexivity.
  - reflexivity.
  - lia.
Defined.

(** X11 on a sink that never answers in time. *)
Lemma actually_send_batch_never_gives_up_witness :
  actually_send_batch (Row := unit) (fun _ => Hung) "downloads" "20184113"
    [] None 1000
  = None.
Proof.
  apply (@actually_send_batch_never_gives_up unit (fun _ => Hung)
           "downloads" "20184113" [] None 1000).
  intro k; left; reflexivity.
Defined.

(** X12 on the sink of the witness of X9 with every default in force: at
    most 15 attempts, within 15 timeouts of 15 and 14 waits of 60. *)
Lemma send_batch_time_boxed_witness :
  exists trace,
    send_batch (Row := unit)
      (fun k => if (k <? 3)%nat then Failed BrokenStreamError else Inserted)
      "downloads" "20184113" [] None None None None 15
    = Some (trace, Return tt)
    /\ (1 <= count_attempts trace <= 15)%nat
    /\ time_budget trace <= 15 * 15 + (15 - 1) * 60.
Proof.
  eexists; split; [reflexivity|].
  apply (@send_batch_time_boxed unit
           (fun k => if (k <? 3)%nat then Failed BrokenStreamError
                     else Inserted)
           "downloads" "20184113" [] None None None None 15 _ (Return tt)).
  - discriminate.
  - discriminate.
  - reflexivity.
Defined.

(** ** [sender]: what it takes from the queue and what it starts *)

Section SenderMore.

Variable Row : Type.
Variable unstructure : Download -> Row.
Variable draw : nat -> UUID.

(** The clock of the inner loop never goes back and never passes the
    deadline, unless it was past it from the start. *)
Lemma accumulate_clock (batch_size : Z) (deadline : seconds) (q : arrivals) :
  forall (now : seconds) (batch : list Download),
  let '(_, _, now', _) := accumulate batch_size deadline now batch q in
  now <= now' /\ now' <= Qmax now deadline.
Proof.
  induction q as [|[t event] q IH]; intros now batch; simpl.
  - destruct (Z.of_nat (List.length batch) <? batch_size)%Z.
    + split; [apply Q.le_max_l|apply Qle_refl].
    + split; [apply Qle_refl|apply Q.le_max_l].
  - destruct (Z.of_nat (List.length batch) <? batch_size)%Z.
    + destruct (Qlt_le_dec (Qmax now t) deadline) as [D|D].
      * specialize (IH (Qmax now t) (batch ++ [event])).
        destruct (accumulate batch_size deadline (Qmax now t)
                    (batch ++ [event]) q) as [[[batch' caught] now'] q'].
        destruct IH as [H1 H2]; split.
        -- eapply Qle_trans; [apply Q.le_max_l|exact H1].
        -- eapply Qle_trans; [exact H2|].
           apply Q.max_lub; [|apply Q.le_max_r].
           eapply Qle_trans; [apply Qlt_le_weak, D|apply Q.le_max_r].
      * split; [apply Q.le_max_l|apply Qle_refl].
    + split; [apply Qle_refl|apply Q.le_max_l].
Qed.

(** X13: a turn of the dispatch loop never lasts longer than
    [batch_timeout]: its clock does not go back, and it ends no later than
    the start of the turn plus the timeout (at the start itself when the
    timeout is not positive). *)
Theorem sender_cycle_duration (table : string) (batch_size : option Z)
  (batch_timeout : option seconds) (retry_max_attempts : option Z)
  (retry_max_wait retry_multiplier api_timeout : option seconds)
  (now : seconds) (q : arrivals) (drawn : nat) :
  let '(_, (now', _, _)) :=
    sender_cycle unstructure draw table batch_size batch_timeout
      retry_max_attempts retry_max_wait retry_multiplier api_timeout
      now q drawn in
  now <= now'
  /\ now' <= Qmax now
               (now + match batch_timeout with Some t => t | None => 30 end).
Proof.
  unfold sender_cycle; cbv zeta.
  pose proof (accumulate_clock
    (match batch_size with Some n => n | None => 500%Z end)
    (now + match batch_timeout with Some t => t | None => 30 end) q now [])
    as H.
  destruct (accumulate _ _ now [] q) as [[[batch caught] now'] q'].
  destruct (compute_batches unstructure draw batch drawn); exact H.
Qed.

Lemma accumulate_no_room (batch_size : Z) (deadline now : seconds)
  (batch : list Download) (q : arrivals) :
  (batch_size <= Z.of_nat (List.length batch))%Z ->
  accumulate batch_size deadline now batch q = (batch, false, now, q).
Proof.
  intro H; apply Z.ltb_ge in H; destruct q as [|[t event] q]; simpl;
    now rewrite H.
Qed.

(** X14: with a [batch_size] of zero or less the dispatch loop turns
    without ever taking an event from the queue: it starts no task, draws
    no identifier, and leaves the clock and the queue as they are. *)
Theorem sender_without_room (table : string) (batch_size : Z)
  (batch_timeout : option seconds) (retry_max_attempts : option Z)
  (retry_max_wait retry_multiplier api_timeout : option seconds)
  (cycles : nat) (now : seconds) (q : arrivals) (drawn : nat) :
  (batch_size <= 0)%Z ->
  sender unstructure draw table (Some batch_size) batch_timeout
    retry_max_attempts retry_max_wait retry_multiplier api_timeout cycles
    now q drawn
  = ([], (now, q, drawn)).
Proof.
  intro Hsize; induction cycles as [|cycles IH]; simpl; [reflexivity|].
  unfold sender_cycle; cbv zeta.
  rewrite accumulate_no_room by (simpl; lia).
  rewrite compute_batches_nil; simpl.
  now rewrite IH.
Qed.

Lemma started_batches_app (l l' : list (action Row)) :
  started_batches (l ++ l') = started_batches l ++ started_batches l'.
Proof. unfold started_batches; apply flat_map_app. Qed.

Lemma started_rows_app (l l' : list (action Row)) :
  started_rows (l ++ l') = started_rows l ++ started_rows l'.
Proof.
  unfold started_rows; now rewrite started_batches_app, map_app, concat_app.
Qed.

Lemma started_batches_start_soon (table : string)
  (retry_max_attempts : option Z)
  (retry_max_wait retry_multiplier api_timeout : option seconds)
  (batches : list (string * list (BatchRecord Row))) :
  started_batches
    (map (fun b : string * list (BatchRecord Row) =>
            StartSoon
              (mkSendTask table (fst b) (snd b) retry_max_attempts
                 retry_max_wait retry_multiplier api_timeout))
         batches)
  = map snd batches.
Proof.
  induction batches as [|b batches IH]; [reflexivity|].
  unfold started_batches in *; simpl; now rewrite IH.
Qed.

Lemma group_length_le (A : Type) (g : list A) (groups : list (list A)) :
  In g groups -> (List.length g <= List.length (List.concat groups))%nat.
Proof.
  induction groups as [|h groups IH]; intro H; [destruct H|].
  simpl; rewrite length_app; destruct H as [->|H]; [lia|].
  specialize (IH H); lia.
Qed.

(** The batches of one call: their rows are the rows of the input up to
    order, and none is empty or longer than the input. *)
Lemma compute_batches_rows (all_items : list Download) (drawn : nat) :
  let batches := fst (compute_batches unstructure draw all_items drawn) in
  Permutation (List.concat (map (map (@json Row)) (map snd batches)))
              (map unstructure all_items)
  /\ Forall (fun b : list (BatchRecord Row) =>
               b <> []
               /\ (List.length b <= List.length all_items)%nat)
            (map snd batches).
Proof.
  destruct (groupby_sorted_spec extract_item_date all_items)
    as (Hperm & _ & _).
  unfold compute_batches.
  pose proof (yield_batches_spec unstructure draw
    (groupby extract_item_date (sorted extract_item_date all_items)) drawn)
    as H.
  destruct (yield_batches unstructure draw _ drawn) as [batches drawn'].
  cbv zeta in H; destruct H as (_ & H2 & _); cbn [fst].
  set (groups := groupby extract_item_date
                   (sorted extract_item_date all_items)) in *.
  assert (Hrows :
    map (map (@json Row)) (map snd batches)
    = map (map unstructure) (map (@group_items Download) groups)).
  { clear Hperm; induction H2 as [|b g bs gs Hb H2 IH]; [reflexivity|].
    simpl; now rewrite Hb, IH. }
  split.
  - rewrite Hrows, <- concat_map; now apply Permutation_map.
  - rewrite <- (Permutation_length Hperm).
    assert (Hin : forall g, In g groups ->
              In (group_items g) (map (@group_items Download) groups))
      by (intros g Hg; now apply in_map).
    clear Hperm Hrows; revert Hin.
    generalize (map (@group_items Download) groups) as all_groups.
    induction H2 as [|b g bs gs Hb H2 IH]; intros all_groups Hin;
      [constructor|].
    simpl; constructor.
    + apply (f_equal (@List.length Row)) in Hb.
      rewrite !length_map in Hb.
      pose proof (@group_length_le _ _ _ (Hin g (or_introl eq_refl))) as Hle.
      split; [|lia].
      intro E; rewrite E in Hb; discriminate Hb.
    + apply IH; intros g' Hg'; apply Hin; now right.
Qed.

(** One turn of the loop: the events it takes from the head of the queue
    are those it hands to [compute_batches], whose batches it starts. *)
Lemma sender_cycle_conserves (table : string) (batch_size : option Z)
  (batch_timeout : option seconds) (retry_max_attempts : option Z)
  (retry_max_wait retry_multiplier api_timeout : option seconds)
  (now : seconds) (q : arrivals) (drawn : nat) :
  let '(trace, (_, q', drawn')) :=
    sender_cycle unstructure draw table batch_size batch_timeout
      retry_max_attempts retry_max_wait retry_multiplier api_timeout
      now q drawn in
  exists taken : arrivals,
    q = taken ++ q'
    /\ started_batches trace
       = map snd (fst (compute_batches unstructure draw (map snd taken)
                         drawn))
    /\ drawn' = (drawn + List.length taken)%nat
    /\ (Z.of_nat (List.length taken)
        <= Z.max 0 (match batch_size with Some n => n | None => 500%Z end))%Z.
Proof.
  unfold sender_cycle; cbv zeta.
  pose proof (accumulate_spec unstructure
    (match batch_size with Some n => n | None => 500%Z end)
    (now + match batch_timeout with Some t => t | None => 30 end) q now [])
    as H.
  destruct (accumulate _ _ now [] q) as [[[batch caught] now'] q'].
  destruct H as ((taken & Hq & Hb & _) & Hfull & Hcut).
  simpl in Hb; subst batch.
  destruct (compute_batches_ids unstructure draw (map snd taken) drawn)
    as [_ Hdrawn].
  destruct (compute_batches unstructure draw (map snd taken) drawn)
    as [batches drawn'] eqn:E.
  exists taken; rewrite E; rewrite length_map in *; simpl in Hdrawn.
  repeat split; [exact Hq| |exact Hdrawn|].
  - rewrite started_batches_app, started_batches_start_soon.
    destruct taken; [reflexivity|]; destruct caught; reflexivity.
  - destruct caught.
    + destruct (Hcut eq_refl) as [H _]; lia.
    + destruct (Hfull eq_refl) as (H1 & H2 & H3); simpl in *.
      destruct (Z.ltb_spec 0
                  (match batch_size with Some n => n | None => 500%Z end))
        as [P|P].
      * destruct (H2 P) as [-> _]; lia.
      * destruct (H3 P) as [H _].
        destruct taken; [simpl; lia|discriminate H].
Qed.

(** X15: over any number of turns the dispatch loop takes the events from
    the head of the queue in order, hands each of them to exactly one
    started send task (the rows of the tasks started are the rows of the
    events taken, up to order), and draws one identifier per event
    taken. *)
Theorem sender_dispatches_what_it_dequeues (table : string)
  (batch_size : option Z) (batch_timeout : option seconds)
  (retry_max_attempts : option Z)
  (retry_max_wait retry_multiplier api_timeout : option seconds)
  (cycles : nat) (now : seconds) (q : arrivals) (drawn : nat) :
  let '(trace, (_, q', drawn')) :=
    sender unstructure draw table batch_size batch_timeout
      retry_max_attempts retry_max_wait retry_multiplier api_timeout cycles
      now q drawn in
  exists taken : arrivals,
    q = taken ++ q'
    /\ Permutation (started_rows trace) (map unstructure (map snd taken))
    /\ drawn' = (drawn + List.length taken)%nat.
Proof.
  revert now q drawn; induction cycles as [|cycles IH]; intros now q drawn.
  - simpl; exists []; split; [reflexivity|split; [apply perm_nil|simpl; lia]].
  - simpl.
    pose proof (sender_cycle_conserves table batch_size batch_timeout
                  retry_max_attempts retry_max_wait retry_multiplier
                  api_timeout now q drawn) as C.
    destruct (sender_cycle unstructure draw table batch_size batch_timeout
                retry_max_attempts retry_max_wait retry_multiplier
                api_timeout now q drawn) as [first [[now1 q1] drawn1]].
    destruct C as (taken1 & Hq1 & Hb1 & Hd1 & _).
    specialize (IH now1 q1 drawn1).
    destruct (sender unstructure draw table batch_size batch_timeout
                retry_max_attempts retry_max_wait retry_multiplier
                api_timeout cycles now1 q1 drawn1)
      as [later [[now2 q2] drawn2]].
    destruct IH as (taken2 & Hq2 & Hp2 & Hd2).
    exists (taken1 ++ taken2); repeat split.
    + now rewrite Hq1, Hq2, app_assoc.
    + rewrite started_rows_app, (map_app snd), (map_app unstructure).
      apply Permutation_app; [|exact Hp2].
      unfold started_rows; rewrite Hb1.
      apply (compute_batches_rows (map snd taken1) drawn).
    + rewrite length_app; lia.
Qed.

(** X16: over any number of turns, no send task is started with an empty
    batch or with more than [batch_size] records (500 by default). *)
Theorem sender_batches_bounded (table : string)
  (batch_size : option Z) (batch_timeout : option seconds)
  (retry_max_attempts : option Z)
  (retry_max_wait retry_multiplier api_timeout : option seconds)
  (cycles : nat) (now : seconds) (q : arrivals) (drawn : nat) :
  Forall (fun b : list (BatchRecord Row) =>
            b <> []
            /\ (Z.of_nat (List.length b)
                <= match batch_size with Some n => n | None => 500%Z end)%Z)
         (started_batches
            (fst (sender unstructure draw table batch_size batch_timeout
                    retry_max_attempts retry_max_wait retry_multiplier
                    api_timeout cycles now q drawn))).
Proof.
  revert now q drawn; induction cycles as [|cycles IH]; intros now q drawn.
  - constructor.
  - simpl.
    pose proof (sender_cycle_conserves table batch_size batch_timeout
                  retry_max_attempts retry_max_wait retry_multiplier
                  api_timeout now q drawn) as C.
    destruct (sender_cycle unstructure draw table batch_size batch_timeout
                retry_max_attempts retry_max_wait retry_multiplier
                api_timeout now q drawn) as [first [[now1 q1] drawn1]].
    destruct C as (taken1 & _ & Hb1 & _ & Hlen).
    specialize (IH now1 q1 drawn1).
    destruct (sender unstructure draw table batch_size batch_timeout
                retry_max_attempts retry_max_wait retry_multiplier
                api_timeout cycles now1 q1 drawn1) as [later final].
    simpl in *; rewrite started_batches_app.
    apply Forall_app; split; [|exact IH].
    rewrite Hb1.
    destruct (compute_batches_rows (map snd taken1) drawn) as [_ Hbound].
    eapply Forall_impl; [|exact Hbound].
    intros b [Hne Hle]; rewrite length_map in Hle.
    split; [exact Hne|].
    destruct b; [contradiction|simpl in *; lia].
Qed.

End SenderMore.

(** X14 on a queue that holds an event from the start. *)
Lemma sender_without_room_witness :
  sender fields N.of_nat "downloads" (Some 0%Z) None None None None None 3
    0 [(0, mkDownload (mkArrow 2018 4 23 1 0 0 0 0) [])] 0
  = ([], (0, [(0, mkDownload (mkArrow 2018 4 23 1 0 0 0 0) [])], 0%nat)).
Proof.
  apply (@sender_without_room _ fields N.of_nat "downloads" 0%Z None None
           None None None 3 0
           [(0, mkDownload (mkArrow 2018 4 23 1 0 0 0 0) [])] 0%nat).
  lia.
Defined.

(** ** Insertion identifiers over the life of the dispatch loop *)

Section SenderIds.

Variable Row : Type.
Variable unstructure : Download -> Row.
Variable draw : nat -> UUID.

Lemma started_ids_app (l l' : list (action Row)) :
  started_ids (l ++ l') = started_ids l ++ started_ids l'.
Proof.
  unfold started_ids; now rewrite started_batches_app, map_app, concat_app.
Qed.

(** The identifiers of the tasks started over some turns are the strings
    of the draws made, in order. *)
Lemma sender_ids (table : string) (batch_size : option Z)
  (batch_timeout : option seconds) (retry_max_attempts : option Z)
  (retry_max_wait retry_multiplier api_timeout : option seconds)
  (cycles : nat) :
  forall (now : seconds) (q : arrivals) (drawn : nat),
  let '(trace, (_, _, drawn')) :=
    sender unstructure draw table batch_size batch_timeout
      retry_max_attempts retry_max_wait retry_multiplier api_timeout cycles
      now q drawn in
  (drawn <= drawn')%nat
  /\ started_ids trace
     = map (fun n => uuid_str (draw n)) (seq drawn (drawn' - drawn)).
Proof.
  induction cycles as [|cycles IH]; intros now q drawn; simpl.
  - rewrite Nat.sub_diag; split; [lia|reflexivity].
  - pose proof (sender_cycle_conserves unstructure draw table batch_size
                  batch_timeout retry_max_attempts retry_max_wait
                  retry_multiplier api_timeout now q drawn) as C.
    destruct (sender_cycle unstructure draw table batch_size batch_timeout
                retry_max_attempts retry_max_wait retry_multiplier
                api_timeout now q drawn) as [first [[now1 q1] drawn1]].
    destruct C as (taken & _ & Hb & Hd & _).
    specialize (IH now1 q1 drawn1).
    destruct (sender unstructure draw table batch_size batch_timeout
                retry_max_attempts retry_max_wait retry_multiplier
                api_timeout cycles now1 q1 drawn1)
      as [later [[now2 q2] drawn2]].
    destruct IH as [Hle Hids]; split; [lia|].
    rewrite started_ids_app, Hids.
    unfold started_ids at 1; rewrite Hb, map_map.
    destruct (compute_batches_ids unstructure draw (map snd taken) drawn)
      as [Hfirst _].
    unfold batch_ids in Hfirst; rewrite Hfirst, length_map, <- map_app.
    replace (drawn2 - drawn)%nat
      with (List.length taken + (drawn2 - drawn1))%nat by lia.
    rewrite seq_app; subst drawn1; reflexivity.
Qed.

(** X17: when the generator gives distinct UUIDs on the draws made, no two
    records of the send tasks started by the dispatch loop, over any number
    of turns, carry the same insertion identifier. *)
Theorem sender_insert_ids_distinct (table : string) (batch_size : option Z)
  (batch_timeout : option seconds) (retry_max_attempts : option Z)
  (retry_max_wait retry_multiplier api_timeout : option seconds)
  (cycles : nat) (now : seconds) (q : arrivals) (drawn bound : nat) :
  (forall m n, (m < bound)%nat -> (n < bound)%nat ->
               draw m = draw n -> m = n) ->
  (forall n, (n < bound)%nat -> (draw n < 2 ^ 128)%N) ->
  (snd (snd (sender unstructure draw table batch_size batch_timeout
               retry_max_attempts retry_max_wait retry_multiplier
               api_timeout cycles now q drawn)) <= bound)%nat ->
  NoDup (started_ids
           (fst (sender unstructure draw table batch_size batch_timeout
                   retry_max_attempts retry_max_wait retry_multiplier
                   api_timeout cycles now q drawn))).
Proof.
  intros Hinj Hrange Hbound.
  pose proof (sender_ids table batch_size batch_timeout retry_max_attempts
                retry_max_wait retry_multiplier api_timeout cycles now q
                drawn) as H.
  destruct (sender unstructure draw table batch_size batch_timeout
              retry_max_attempts retry_max_wait retry_multiplier
              api_timeout cycles now q drawn) as [trace [[now' q'] drawn']].
  simpl in *; destruct H as [Hle ->].
  apply NoDup_map_in; [|apply seq_NoDup].
  intros m n Hm Hn E; rewrite in_seq in Hm, Hn.
  apply uuid_str_inj in E; [|apply Hrange; lia|apply Hrange; lia].
  apply Hinj; [lia|lia|exact E].
Qed.

End SenderIds.

(** X17 on two turns over three events, with a generator that counts. *)
Lemma sender_insert_ids_distinct_witness :
  NoDup
    (started_ids
       (fst (sender fields N.of_nat "downloads" (Some 2%Z) (Some 5) None
               None None None 2 0
               [(0, mkDownload (mkArrow 2018 4 23 1 0 0 0 0) []);
                (1, mkDownload (mkArrow 2018 4 24 1 0 0 0 0) []);
                (2, mkDownload (mkArrow 2018 4 23 2 0 0 0 0) [])] 0))).
Proof.
  apply (@sender_insert_ids_distinct _ fields N.of_nat "downloads"
           (Some 2%Z) (Some 5) None None None None 2 0
           [(0, mkDownload (mkArrow 2018 4 23 1 0 0 0 0) []);
            (1, mkDownload (mkArrow 2018 4 24 1 0 0 0 0) []);
            (2, mkDownload (mkArrow 2018 4 23 2 0 0 0 0) [])] 0%nat 3%nat).
  - intros m n _ _ H; now apply Nat2N.inj.
  - intros n Hn; apply N.lt_trans with (m := 3%N); [lia|reflexivity].
  - vm_compute; lia.
Defined.

(** ** [extract_item_date]: the shape of the key *)

Lemma day_part_not_mmdd_ok (leap : bool) : day_part_not_mmdd leap = true.
Proof. destruct leap; vm_compute; reflexivity. Qed.

Lemma string_app_inv_head (a b c : string) :
  (a ++ b)%string = (a ++ c)%string -> b = c.
Proof.
  induction a as [|x a IH]; simpl; intro H; [exact H|].
  injection H as H; now apply IH.
Qed.

(** X18: the partition key of an event is never its date written as
    [YYYYMMDD]: the format [YYYYMDDD] gives the year, the month and the day
    of the year, the last two without padding. *)
Theorem extract_item_date_not_yyyymmdd (item : Download) :
  valid_date (timestamp item) ->
  arrow_format (timestamp item) "YYYYMMDD"
  = Some (format_0d 4 (year (timestamp item))
          ++ format_0d 2 (month (timestamp item))
          ++ format_0d 2 (day (timestamp item)))%string
  /\ Some (extract_item_date item)
     <> arrow_format (timestamp item) "YYYYMMDD".
Proof.
  intro Hvalid.
  assert (Hfmt : arrow_format (timestamp item) "YYYYMMDD"
                 = Some (format_0d 4 (year (timestamp item))
                         ++ format_0d 2 (month (timestamp item))
                         ++ format_0d 2 (day (timestamp item)))%string).
  { unfold arrow_format; simpl; now rewrite string_app_empty. }
  split; [exact Hfmt|].
  rewrite Hfmt, extract_item_date_eq; intro H; injection H as H.
  apply string_app_inv_head in H; rewrite day_part_spec in H.
  pose proof Hvalid as (_ & Hm & Hd1 & Hd2).
  pose proof (days_in_month_le_31 (year (timestamp item))
                (month (timestamp item))) as H31.
  pose proof (day_part_not_mmdd_ok (is_leap (year (timestamp item)))) as C.
  unfold day_part_not_mmdd in C.
  apply (upto_forallb _ _) with (z := month (timestamp item)) in C;
    [|simpl; lia].
  apply (upto_forallb _ _) with (z := day (timestamp item)) in C;
    [|simpl; lia].
  rewrite H, String.eqb_refl in C; discriminate C.
Qed.

(** X18 on 23 April 2018, whose key is ["20184113"] and whose date is
    ["20180423"]. *)
Lemma extract_item_date_not_yyyymmdd_witness :
  Some (extract_item_date (mkDownload (mkArrow 2018 4 23 12 0 0 0 0) []))
  <> arrow_format (mkArrow 2018 4 23 12 0 0 0 0) "YYYYMMDD".
Proof.
  apply (@extract_item_date_not_yyyymmdd
           (mkDownload (mkArrow 2018 4 23 12 0 0 0 0) [])).
  repeat split; vm_compute; intro H; discriminate H.
Defined.

(** ** [handle_connection]: framing errors *)

Section HandleConnectionSignals.

Variable Row : Type.
Variable draw : nat -> UUID.
Variable syslog_parse : pystr -> result SyslogMessage.
Variable event_parse : pystr -> result Download.
Variable LineReceiver : Type.
Variable new_LineReceiver :
  (bytes -> result (option Download)) -> option Z -> LineReceiver.
Variable recieve_data :
  LineReceiver -> bytes -> list Download * result LineReceiver.
Variable close : LineReceiver -> result unit.

(** As long as the framer accepts the chunks read, the loop does the rounds
    of these chunks and goes on with what is left of the stream. *)
Lemma receive_loop_accepted (peer_id : UUID) (peer : pystr) (recv_size : Z)
  (chunks : list bytes) (rest : list (result bytes)) :
  forall (lr lr' : LineReceiver) (before : list (action Row)),
    Forall (fun data => data <> []) chunks ->
    accepted_rounds Row recieve_data peer_id recv_size lr chunks
    = Some (before, lr') ->
    receive_loop recieve_data close peer_id peer recv_size lr
      (map Return chunks ++ rest)
    = (before
       ++ fst (receive_loop recieve_data close peer_id peer recv_size lr'
                 rest),
       snd (receive_loop (Row := Row) recieve_data close peer_id peer
              recv_size lr' rest)).
Proof.
  induction chunks as [|data chunks IH]; intros lr lr' before Hne Hacc.
  - injection Hacc as <- <-; simpl.
    now destruct (receive_loop (Row := Row) recieve_data close peer_id peer
                    recv_size lr rest).
  - inversion Hne as [|? ? Hdata Hne']; subst.
    simpl in Hacc |- *.
    destruct data as [|b data]; [contradiction|].
    destruct (recieve_data lr (b :: data)) as [events [lr1|e]];
      [|discriminate].
    destruct (accepted_rounds Row recieve_data peer_id recv_size lr1 chunks)
      as [[later lr2]|] eqn:E; [|discriminate].
    injection Hacc as <- <-.
    rewrite (IH lr1 lr2 later Hne' E); simpl.
    now rewrite <- app_assoc.
Qed.

(** A call of [recieve_data] that raises ends the loop at once. *)
Lemma receive_loop_recieve_raises (peer_id : UUID) (peer : pystr)
  (recv_size : Z) (lr : LineReceiver) (rest : list (result bytes))
  (data : bytes) (events : list Download) (e : exn) :
  receive_or_empty (next_read rest) = Return data ->
  recieve_data lr data = (events, Raise e) ->
  receive_loop (Row := Row) recieve_data close peer_id peer recv_size lr rest
  = (ReceiveSome recv_size :: put_events peer_id events, Raise e).
Proof.
  intros Hread Hraise.
  assert (Hend : data = [] ->
            end_of_stream (Row := Row) recieve_data close peer_id peer
              recv_size lr
            = (ReceiveSome recv_size :: put_events peer_id events, Raise e)).
  { intros ->; unfold end_of_stream; now rewrite Hraise. }
  destruct rest as [|r after]; simpl in Hread |- *.
  - injection Hread as <-; now apply Hend.
  - rewrite Hread; destruct data as [|b data]; [now apply Hend|].
    now rewrite Hraise.
Qed.

(** A [close] that raises at the end of the stream ends the loop too. *)
Lemma receive_loop_close_raises (peer_id : UUID) (peer : pystr)
  (recv_size : Z) (lr lr' : LineReceiver) (rest : list (result bytes))
  (events : list Download) (e : exn) :
  receive_or_empty (next_read rest) = Return [] ->
  recieve_data lr [] = (events, Return lr') ->
  close lr' = Raise e ->
  receive_loop (Row := Row) recieve_data close peer_id peer recv_size lr rest
  = (ReceiveSome recv_size :: put_events peer_id events
       ++ [Log (ConnectionLost peer_id peer)],
     Raise e).
Proof.
  intros Hread Hdata Hclose.
  assert (Hend :
            end_of_stream (Row := Row) recieve_data close peer_id peer
              recv_size lr
            = (ReceiveSome recv_size :: put_events peer_id events
                 ++ [Log (ConnectionLost peer_id peer)],
               Raise e)).
  { unfold end_of_stream; rewrite Hdata, Hclose; reflexivity. }
  destruct rest as [|r after]; simpl in Hread |- *; [exact Hend|].
  now rewrite Hread.
Qed.

(** C8: however the loop ends, the last thing [handle_connection] does, and
    the only time it does it, is to close the stream with a grace period of
    30.  When the line framer raises [BufferTooLargeError] or
    [TruncatedLineError], from [recieve_data] on some chunk or from [close]
    at the end of the stream, after rounds in which it had accepted what
    was read, the handler does those rounds, the read of the failing round
    and the pushes of the events the framer yielded before it raised, and
    then nothing but log the condition and close the stream: no event is
    pushed and nothing is read after the signal, whatever the stream holds
    further, and the handler returns normally. *)
Theorem handle_connection_framing_errors (getpeername : option pystr)
  (token : option pystr) (max_line_size recv_size : option Z)
  (drawn : nat) :
  let peer_id := draw drawn in
  let peer :=
    match getpeername with
    | Some peer => peer
    | None => [85; 110; 107; 110; 111; 119; 110]%N
    end in
  let size := match recv_size with Some n => n | None => 8192%Z end in
  let lr :=
    new_LineReceiver
      (fun line => parse_line syslog_parse event_parse line token)
      max_line_size in
  let run reads :=
    handle_connection Row draw syslog_parse event_parse new_LineReceiver
      recieve_data close getpeername reads token max_line_size recv_size
      drawn in
  (forall reads,
     exists before,
       fst (fst (run reads)) = before ++ [Aclose 30]
       /\ Forall (fun a => is_aclose a = false) before)
  /\ (forall (chunks : list bytes) rest before lr' data events e,
        Forall (fun chunk => chunk <> []) chunks ->
        accepted_rounds Row recieve_data peer_id size lr chunks
        = Some (before, lr') ->
        receive_or_empty (next_read rest) = Return data ->
        recieve_data lr' data = (events, Raise e) ->
        e = BufferTooLargeError \/ e = TruncatedLineError ->
        run (map Return chunks ++ rest)
        = (Log (ConnectionReceived peer_id peer)
           :: before
           ++ ReceiveSome size :: put_events peer_id events
           ++ [Log (signal_record peer_id e); Aclose 30],
           Return tt, S drawn))
  /\ (forall (chunks : list bytes) rest before lr' events lr'' e,
        Forall (fun chunk => chunk <> []) chunks ->
        accepted_rounds Row recieve_data peer_id size lr chunks
        = Some (before, lr') ->
        receive_or_empty (next_read rest) = Return [] ->
        recieve_data lr' [] = (events, Return lr'') ->
        close lr'' = Raise e ->
        e = BufferTooLargeError \/ e = TruncatedLineError ->
        run (map Return chunks ++ rest)
        = (Log (ConnectionReceived peer_id peer)
           :: before
           ++ ReceiveSome size :: put_events peer_id events
           ++ [Log (ConnectionLost peer_id peer);
               Log (signal_record peer_id e); Aclose 30],
           Return tt, S drawn)).
Proof.
  intros peer_id peer size lr run; split; [|split].
  - intro reads; unfold run.
    pose proof (@handle_connection_shape Row draw syslog_parse event_parse
                  LineReceiver new_LineReceiver recieve_data close
                  getpeername reads token max_line_size recv_size drawn)
      as H.
    cbv zeta in H.
    destruct (receive_loop recieve_data close (draw drawn) _ _ _ reads)
      as [looped raised].
    destruct (handle_connection Row draw syslog_parse event_parse
                new_LineReceiver recieve_data close getpeername reads token
                max_line_size recv_size drawn) as [[trace res] drawn'].
    exact (proj1 H).
  - intros chunks rest before lr' data events e Hne Hacc Hread Hraise He.
    unfold run, handle_connection, uuid4; cbv beta iota zeta.
    fold peer_id; fold peer; fold size; fold lr.
    rewrite (@receive_loop_accepted peer_id peer size chunks rest lr lr'
               before Hne Hacc).
    rewrite (@receive_loop_recieve_raises peer_id peer size lr' rest data
               events e Hread Hraise).
    cbn [fst snd].
    destruct He as [-> | ->]; simpl; now rewrite <- app_assoc.
  - intros chunks rest before lr' events lr'' e Hne Hacc Hread Hdata Hclose
      He.
    unfold run, handle_connection, uuid4; cbv beta iota zeta.
    fold peer_id; fold peer; fold size; fold lr.
    rewrite (@receive_loop_accepted peer_id peer size chunks rest lr lr'
               before Hne Hacc).
    rewrite (@receive_loop_close_raises peer_id peer size lr' lr'' rest
               events e Hread Hdata Hclose).
    cbn [fst snd].
    destruct He as [-> | ->]; simpl;
      repeat (rewrite <- app_assoc; simpl); reflexivity.
Qed.

End HandleConnectionSignals.

(** C8 on the sample framer with a maximum line size of 16: the second
    chunk makes the unterminated line too long, the connection is dropped
    without a push, and the third chunk is never read. *)
Lemma handle_connection_framing_errors_witness :
  sample_connection
    [Return (ascii_bytes "tokaaaaaaaa"); Return (ascii_bytes "aaaaaaaaaaa");
     Return (ascii_bytes "tokhello" ++ [x0a])]
    (Some (ascii_text "tok")) (Some 16%Z)
  = ([Log (ConnectionReceived 0%N (ascii_text "Unknown"));
      ReceiveSome 8192%Z;
      ReceiveSome 8192%Z;
      Log (BufferTooLarge 0%N);
      Aclose 30],
     Return tt, 1%nat).
Proof.
  pose proof (@handle_connection_framing_errors unit N.of_nat
                sample_syslog_parse sample_event_parse sample_framer
                new_sample_framer sample_recieve_data sample_close None
                (Some (ascii_text "tok")) (Some 16%Z) None 0%nat) as H.
  cbv zeta in H.
  destruct H as [_ [H _]].
  apply (H [ascii_bytes "tokaaaaaaaa"]
           [Return (ascii_bytes "aaaaaaaaaaa");
            Return (ascii_bytes "tokhello" ++ [x0a])]
           [ReceiveSome 8192%Z]
           (mkSampleFramer
              (fun line =>
                 parse_line sample_syslog_parse sample_event_parse line
                   (Some (ascii_text "tok")))
              16 (ascii_bytes "tokaaaaaaaa"))
           (ascii_bytes "aaaaaaaaaaa") [] BufferTooLargeError).
  - constructor; [ intro E; discriminate E | constructor ].
  - reflexivity.
  - reflexivity.
  - reflexivity.
  - left; reflexivity.
Defined.
